(** * productcatalog: a shallow embedding of [product/productcatalog.go]

    The Go package keeps products in hash maps ([map[int]Product]), mutates
    single products through pointer receivers, and fetches product details
    from a simulated external API in one goroutine per requested ID.

    Modelling choices, in the order of the source file:
    - Go's [int] is the 64-bit two's complement integer of the usual targets:
      a [Z] together with the wrap-around [wrap] applied after every
      addition and subtraction;
    - [float64] is IEEE 754 binary64, taken from the executable
      specification of the Standard Library ([spec_float] with precision 53
      and maximal exponent 1024), [float32] likewise with 24 and 128; a
      product and the sum it enters are rounded one after the other, as the
      amd64 compiler does it;
    - a [map[int]Product] is [nil] or a [gmap Z Product] that [make] has
      built: a nil map reads as the empty one, and a write to it panics; a
      [range] loop over a map visits every entry exactly once in an order
      Go leaves unspecified, so every loop takes the visiting order as an
      argument, constrained by [range_of];
    - a pointer to a [Product] is a location in a heap of [Product] cells;
    - the draws of [math/rand] are explicit arguments;
    - goroutines are threads of a small-step transition system whose
      scheduler is arbitrary. *)

From Stdlib Require Import ZArith Lia.
From Stdlib Require Import Floats.SpecFloat.
From stdpp Require Import gmap strings list fin_maps pretty.

Open Scope Z_scope.

(** ** Go's [int] *)

Module GoInt.

Definition int_bits : Z := 64.
Definition min_int : Z := - 2 ^ (int_bits - 1).
Definition max_int : Z := 2 ^ (int_bits - 1) - 1.

(** The values an [int] variable can hold. *)
Definition is_int (z : Z) : Prop := min_int <= z <= max_int.

(** Reduction of a mathematical integer to its two's complement
    representative. *)
Definition wrap (z : Z) : Z :=
  (z + 2 ^ (int_bits - 1)) mod 2 ^ int_bits - 2 ^ (int_bits - 1).

Definition add (x y : Z) : Z := wrap (x + y).
Definition sub (x y : Z) : Z := wrap (x - y).

(** [x < y] on [int]s is the comparison of the represented integers. *)
Definition ltb (x y : Z) : bool := x <? y.

End GoInt.

(** ** [float64] and [float32] *)

Module GoFloat.

Definition float64 : Type := spec_float.
Definition float32 : Type := spec_float.

Definition prec64 : Z := 53.
Definition emax64 : Z := 1024.
Definition prec32 : Z := 24.
Definition emax32 : Z := 128.

Definition f64_zero : float64 := S754_zero false.
Definition f64_add (x y : float64) : float64 := SFadd prec64 emax64 x y.
Definition f64_mul (x y : float64) : float64 := SFmul prec64 emax64 x y.

(** The conversion [float64(n)] of an [int]: round to nearest, ties to
    even. *)
Definition f64_of_int (n : Z) : float64 :=
  binary_normalize prec64 emax64 n 0 false.

(** The values a [float64] variable can hold. *)
Definition is_float64 (x : float64) : Prop :=
  valid_binary prec64 emax64 x = true.

(** The values a [float32] variable can hold. *)
Definition is_float32 (x : float32) : Prop :=
  valid_binary prec32 emax32 x = true.

(** The untyped constant [0.1] converted to [float32]: 0x3DCCCCCD. *)
Definition f32_tenth : float32 := S754_finite false 13421773 (-27).
Definition f32_ltb (x y : float32) : bool := SFltb x y.

End GoFloat.

Import GoInt GoFloat.

(** ** Errors: the package-level [errors.New] values *)

Inductive error : Set :=
  | ErrInsufficientStock
  | ErrProductNotFound
  | ErrProductAlreadyExists
  | ErrAPIRequestFailed
  | ErrFailedToSaveProduct
  | ErrFailedToGetProduct
  | ErrFailedToDeleteProduct
  | ErrFailedToFetchProductDetails.

(** A Go [error] result: [None] is [nil]. *)
Definition go_error : Type := option error.

(** How a call ends: it returns, or it panics, as the write to a nil map
    does ([assignment to entry in nil map]). *)
Inductive outcome (A : Type) : Type :=
  | Returns (a : A)
  | Panics.

Arguments Returns {A} a.
Arguments Panics {A}.

(** ** [Product] *)

Record Product : Type := mkProduct {
  ID : Z;
  Name : string;
  Price : float64;
  Quantity : Z;
  Category : string
}.

(** The products a Go program can build: both [int] fields in range, the
    price a binary64 value. *)
Definition wf_product (p : Product) : Prop :=
  is_int (ID p) /\ is_int (Quantity p) /\ is_float64 (Price p).

(** [func (p *Product) UpdatePrice(newPrice float64)] on the pointee. *)
Definition UpdatePrice (newPrice : float64) (p : Product) : Product :=
  {| ID := ID p; Name := Name p; Price := newPrice;
     Quantity := Quantity p; Category := Category p |}.

(** [func (p *Product) Sell(quantity int) error] on the pointee: the
    returned error and the pointee afterwards. *)
Definition Sell (quantity : Z) (p : Product) : go_error * Product :=
  if GoInt.ltb (Quantity p) quantity then (Some ErrInsufficientStock, p)
  else (None,
        {| ID := ID p; Name := Name p; Price := Price p;
           Quantity := GoInt.sub (Quantity p) quantity;
           Category := Category p |}).

(** [func (p *Product) Restock(quantity int)] on the pointee. *)
Definition Restock (quantity : Z) (p : Product) : Product :=
  {| ID := ID p; Name := Name p; Price := Price p;
     Quantity := GoInt.add (Quantity p) quantity;
     Category := Category p |}.

(** A call of one of the three mutation primitives. *)
Inductive mutation : Type :=
  | CallSell (quantity : Z)
  | CallRestock (quantity : Z)
  | CallUpdatePrice (newPrice : float64).

(** The pointee after one call; the error of [Sell] is returned to the
    caller and does not change what the pointee holds. *)
Definition apply_mutation (p : Product) (c : mutation) : Product :=
  match c with
  | CallSell n => snd (Sell n p)
  | CallRestock n => Restock n p
  | CallUpdatePrice x => UpdatePrice x p
  end.

Definition apply_mutations (p : Product) (cs : list mutation) : Product :=
  fold_left apply_mutation cs p.

(** A call whose arithmetic stays inside [int] and that restocks by a
    non-negative amount: the difference formed by [Sell] and the sum formed
    by [Restock] do not exceed [max_int]. *)
Definition call_in_range (p : Product) (c : mutation) : Prop :=
  match c with
  | CallSell n => Quantity p - n <= max_int
  | CallRestock n => 0 <= n /\ Quantity p + n <= max_int
  | CallUpdatePrice _ => True
  end.

Fixpoint calls_in_range (p : Product) (cs : list mutation) : Prop :=
  match cs with
  | [] => True
  | c :: cs' => call_in_range p c /\ calls_in_range (apply_mutation p c) cs'
  end.

(** ** Pointers to products

    A pointer to a [Product] is [nil] or the address of a [Product]
    variable. The heap maps the addresses in use to what they hold; taking the address of a
    local variable, as in [return &p, nil], moves the variable to a fresh
    address. *)

Definition loc : Type := positive.

Definition new_product (p : Product) (h : gmap loc Product)
  : loc * gmap loc Product :=
  let l := fresh (dom h) in (l, <[l := p]> h).

(** A method call [ptr.Sell(n)], [ptr.Restock(n)] or [ptr.UpdatePrice(x)]
    through a pointer; dereferencing an address that holds nothing has no
    result. *)
Definition call_through (l : loc) (c : mutation) (h : gmap loc Product)
  : option (gmap loc Product) :=
  p ← h !! l; Some (<[l := apply_mutation p c]> h).

Fixpoint calls_through (l : loc) (cs : list mutation) (h : gmap loc Product)
  : option (gmap loc Product) :=
  match cs with
  | [] => Some h
  | c :: cs' => h' ← call_through l c h; calls_through l cs' h'
  end.

(** ** Iteration over a map

    [order] is a sequence in which a [range] loop may visit the entries of
    [m]: every entry once, in any order. *)
Definition range_of (m : gmap Z Product) (order : list (Z * Product)) : Prop :=
  order ≡ₚ map_to_list m.

(** ** [Inventory]

    The field [Products] holds a map of Go: [nil], which is what the zero
    value [Inventory{}] has, or a table that [make] has built. [table] is
    that field, [None] being [nil]. Reading a nil map finds nothing, its
    [len] is zero, [delete] leaves it as it is and [range] visits nothing;
    an assignment to one of its entries panics. *)

Module Inventory.

Record t : Type := build { table : option (gmap Z Product) }.

(** [Inventory{Products: m}] for a map [m] that [make] has built, and the
    zero value [Inventory{}]. *)
Definition mk (m : gmap Z Product) : t := build (Some m).
Definition zero : t := build None.

(** The entries of [i.Products], as every read of the field sees them: a
    nil map has none. *)
Definition Products (i : t) : gmap Z Product :=
  match table i with
  | Some m => m
  | None => ∅
  end.

(** [i.Products != nil] *)
Definition made (i : t) : bool :=
  match table i with
  | Some _ => true
  | None => false
  end.

(** [func (i *Inventory) AddProduct(p Product) error]. The lookup misses
    in a nil map, and the assignment that follows panics. *)
Definition AddProduct (p : Product) (i : t) : outcome go_error * t :=
  match Products i !! ID p with
  | Some _ => (Returns (Some ErrProductAlreadyExists), i)
  | None =>
      match table i with
      | Some m => (Returns None, mk (<[ID p := p]> m))
      | None => (Panics, i)
      end
  end.

(** [func (i *Inventory) RemoveProduct(id int) error]. The lookup misses
    in a nil map, so [delete] is applied to a map that has been made. *)
Definition RemoveProduct (id : Z) (i : t) : go_error * t :=
  match Products i !! id with
  | None => (Some ErrProductNotFound, i)
  | Some _ => (None, mk (delete id (Products i)))
  end.

(** The loop of [FindProductByName] over the entries still to visit. *)
Fixpoint FindProductByName_loop (order : list (Z * Product)) (name : string)
    (h : gmap loc Product) : (option loc * go_error) * gmap loc Product :=
  match order with
  | [] => ((None, Some ErrProductNotFound), h)
  | (_, p) :: rest =>
      if String.eqb (Name p) name
      then let '(l, h') := new_product p h in ((Some l, None), h')
      else FindProductByName_loop rest name h
  end.

(** [func (i *Inventory) FindProductByName(name string)], returning a
    pointer and an error:
    the inventory is only read. *)
Definition FindProductByName (i : t) (order : list (Z * Product))
    (name : string) (h : gmap loc Product)
  : (option loc * go_error) * gmap loc Product :=
  FindProductByName_loop order name h.

(** The loop of [ListByCategory]; [products] is the slice built so far. *)
Fixpoint ListByCategory_loop (order : list (Z * Product)) (category : string)
    (products : list Product) : list Product :=
  match order with
  | [] => products
  | (_, p) :: rest =>
      if String.eqb (Category p) category
      then ListByCategory_loop rest category (products ++ [p])
      else ListByCategory_loop rest category products
  end.

(** [func (i *Inventory) ListByCategory(category string) []Product]; the
    [nil] slice it starts from is the empty list. *)
Definition ListByCategory (i : t) (order : list (Z * Product))
    (category : string) : list Product :=
  ListByCategory_loop order category [].

(** The loop of [TotalValue]; [total] is the accumulator. *)
Fixpoint TotalValue_loop (order : list (Z * Product)) (total : float64)
  : float64 :=
  match order with
  | [] => total
  | (_, p) :: rest =>
      TotalValue_loop rest
        (f64_add total (f64_mul (Price p) (f64_of_int (Quantity p))))
  end.

(** [func (i *Inventory) TotalValue() float64] *)
Definition TotalValue (i : t) (order : list (Z * Product)) : float64 :=
  TotalValue_loop order f64_zero.

End Inventory.

(** ** [MemoryStorage]

    The embedded [sync.Mutex] is a flag; [Lock] on a held mutex does not
    return, which is the [None] of every method below. The field
    [Products] is a map of Go as in [Inventory]: [table] holds it, [None]
    being the nil map of the zero value [MemoryStorage{}]. *)

Module MemoryStorage.

Record t : Type := build { Mutex : bool; table : option (gmap Z Product) }.

(** [MemoryStorage{Products: m}] for a map [m] that [make] has built, with
    the state of its mutex, and the zero value [MemoryStorage{}]. *)
Definition mk (mutex : bool) (m : gmap Z Product) : t := build mutex (Some m).
Definition zero : t := build false None.

(** The entries of [m.Products], as every read of the field sees them. *)
Definition Products (m : t) : gmap Z Product :=
  match table m with
  | Some products => products
  | None => ∅
  end.

(** [m.Products != nil] *)
Definition made (m : t) : bool :=
  match table m with
  | Some _ => true
  | None => false
  end.

(** [func NewMemoryStorage() *MemoryStorage] *)
Definition NewMemoryStorage : t := mk false ∅.

Definition Lock (m : t) : option t :=
  if Mutex m then None else Some (build true (table m)).
Definition Unlock (m : t) : t := build false (table m).

(** [func (m *MemoryStorage) Save(p Product) error]. On a nil map the
    assignment panics, and the deferred [m.Unlock()] runs while the panic
    unwinds. *)
Definition Save (p : Product) (m : t) : option (outcome go_error * t) :=
  m1 ← Lock m;
  match table m1 with
  | Some products =>
      Some (Returns None, Unlock (mk (Mutex m1) (<[ID p := p]> products)))
  | None => Some (Panics, Unlock m1)
  end.

(** [func (m *MemoryStorage) GetByID(id int)], returning a pointer and an
    error *)
Definition GetByID (id : Z) (m : t) (h : gmap loc Product)
  : option ((option loc * go_error) * t * gmap loc Product) :=
  m1 ← Lock m;
  match Products m1 !! id with
  | Some p =>
      let '(l, h') := new_product p h in Some ((Some l, None), Unlock m1, h')
  | None => Some ((None, Some ErrProductNotFound), Unlock m1, h)
  end.

(** [func (m *MemoryStorage) Delete(id int) error] *)
Definition Delete (id : Z) (m : t) : option (go_error * t) :=
  m1 ← Lock m;
  match Products m1 !! id with
  | None => Some (Some ErrProductNotFound, Unlock m1)
  | Some _ => Some (None, Unlock (mk (Mutex m1) (delete id (Products m1))))
  end.

End MemoryStorage.

(** ** [MockDatabaseStorage]

    Every method draws [rand.Intn(3)] for the sleep and [rand.Float32()]
    for the failure; sleeping changes nothing in the store. *)

Record db_draws : Type := mk_db_draws {
  sleep_draw : Z;
  fail_draw : float32
}.

(** [rand.Float32() < 0.1] *)
Definition failure_triggers (fail : float32) : bool := f32_ltb fail f32_tenth.

Module MockDatabaseStorage.

(** The field [store] is a map of Go: [table] holds it, [None] being the
    nil map of the zero value [MockDatabaseStorage{}]. *)
Record t : Type := build { Mutex : bool; table : option (gmap Z Product) }.

(** [MockDatabaseStorage{store: m}] for a map [m] that [make] has built,
    with the state of its mutex, and the zero value. *)
Definition mk (mutex : bool) (m : gmap Z Product) : t := build mutex (Some m).
Definition zero : t := build false None.

(** The entries of [mds.store], as every read of the field sees them. *)
Definition store (mds : t) : gmap Z Product :=
  match table mds with
  | Some m => m
  | None => ∅
  end.

(** [mds.store != nil] *)
Definition made (mds : t) : bool :=
  match table mds with
  | Some _ => true
  | None => false
  end.

(** [func NewMockDatabaseStorage() *MockDatabaseStorage] *)
Definition NewMockDatabaseStorage : t := mk false ∅.

Definition Lock (m : t) : option t :=
  if Mutex m then None else Some (build true (table m)).
Definition Unlock (m : t) : t := build false (table m).

(** [func (mds *MockDatabaseStorage) Save(p Product) error]. The failure is
    drawn before the assignment, which panics on a nil map; the deferred
    [mds.Unlock()] runs while the panic unwinds. *)
Definition Save (d : db_draws) (p : Product) (mds : t)
  : option (outcome go_error * t) :=
  m1 ← Lock mds;
  if failure_triggers (fail_draw d)
  then Some (Returns (Some ErrFailedToSaveProduct), Unlock m1)
  else match table m1 with
       | Some products =>
           Some (Returns None,
                 Unlock (mk (Mutex m1) (<[ID p := p]> products)))
       | None => Some (Panics, Unlock m1)
       end.

(** [func (mds *MockDatabaseStorage) GetByID(id int)], returning a pointer
    and an error *)
Definition GetByID (d : db_draws) (id : Z) (mds : t) (h : gmap loc Product)
  : option ((option loc * go_error) * t * gmap loc Product) :=
  m1 ← Lock mds;
  if failure_triggers (fail_draw d)
  then Some ((None, Some ErrFailedToGetProduct), Unlock m1, h)
  else match store m1 !! id with
       | Some p =>
           let '(l, h') := new_product p h in
           Some ((Some l, None), Unlock m1, h')
       | None => Some ((None, Some ErrProductNotFound), Unlock m1, h)
       end.

(** [func (mds *MockDatabaseStorage) Delete(id int) error] *)
Definition Delete (d : db_draws) (id : Z) (mds : t)
  : option (go_error * t) :=
  m1 ← Lock mds;
  if failure_triggers (fail_draw d)
  then Some (Some ErrFailedToDeleteProduct, Unlock m1)
  else match store m1 !! id with
       | None => Some (Some ErrProductNotFound, Unlock m1)
       | Some _ => Some (None, Unlock (mk (Mutex m1) (delete id (store m1))))
       end.

End MockDatabaseStorage.

(** ** [ExternalAPI] *)

Record ExternalAPI : Type := mkExternalAPI { BaseURL : string }.

(** The draws of one call of [FetchProductDetails], in the order of the
    calls of [math/rand]. *)
Record api_draws : Type := mk_api_draws {
  api_sleep : Z;
  api_fail : float32;
  api_price : Z;
  api_quantity : Z
}.

(** [func (api *ExternalAPI) FetchProductDetails(id int)], returning a
    pointer and an error. The pointer of the success case is the address of
    a new composite literal, which nothing else refers to: it is
    represented by what it points to, and [None] is [nil]. *)
Definition FetchProductDetails (api : ExternalAPI) (d : api_draws) (id : Z)
  : option Product * go_error :=
  if failure_triggers (api_fail d)
  then (None, Some ErrFailedToFetchProductDetails)
  else (Some {| ID := id;
                Name := "Product " +:+ pretty id;
                Price := f64_of_int (api_price d);
                Quantity := api_quantity d;
                Category := "Category" |},
        None).

(** ** [FetchProductsConcurrently]

    The main thread and the goroutines it starts are the threads of a
    transition system. A goroutine calls the API, then sends on one of the
    two channels, then runs its deferred [wg.Done()]. *)

Module Fetcher.

Inductive goroutine : Type :=
  | GCall (id : Z) (d : api_draws)
  | GSend (r : option Product * go_error)
  | GDeferred
  | GExit.

Inductive main_thread : Type :=
  | MLoop (rest : list (Z * api_draws))
  | MWait
  | MReturn (products : list (option Product)).

(** [results] and [errors] are the buffers of the two channels, oldest
    first, [capacity] their common capacity [len(ids)], [wg] the counter of
    the wait group. *)
Record sys : Type := mk {
  main : main_thread;
  goroutines : list goroutine;
  results : list (option Product);
  errors : list error;
  wg : nat;
  capacity : nat
}.

Inductive actor : Type :=
  | Main
  | Go (k : nat).

(** One step of the main thread: the body of the [for] loop ([wg.Add(1)]
    and the [go] statement), the exit of the loop, and, once the counter is
    zero, [wg.Wait()] with the two [close]s and the loop draining [results]
    into [products]. [wg.Wait()] cannot move while the counter is positive,
    and a returned function has no step. *)
Definition main_step (s : sys) : option sys :=
  match main s with
  | MLoop ((id, d) :: rest) =>
      Some (mk (MLoop rest) (goroutines s ++ [GCall id d]) (results s)
               (errors s) (S (wg s)) (capacity s))
  | MLoop [] =>
      Some (mk MWait (goroutines s) (results s) (errors s) (wg s)
               (capacity s))
  | MWait =>
      match wg s with
      | O => Some (mk (MReturn (results s)) (goroutines s) (results s)
                      (errors s) (wg s) (capacity s))
      | S _ => None
      end
  | MReturn _ => None
  end.

(** One step of goroutine [k]. A send cannot move while the buffer is
    full, [wg.Done()] panics on a zero counter, and an exited goroutine has
    no step. *)
Definition go_step (api : ExternalAPI) (k : nat) (s : sys) : option sys :=
  match goroutines s !! k with
  | Some (GCall id d) =>
      Some (mk (main s)
               (<[k := GSend (FetchProductDetails api d id)]> (goroutines s))
               (results s) (errors s) (wg s) (capacity s))
  | Some (GSend (_, Some err)) =>
      if decide (length (errors s) < capacity s)%nat
      then Some (mk (main s) (<[k := GDeferred]> (goroutines s)) (results s)
                    (errors s ++ [err]) (wg s) (capacity s))
      else None
  | Some (GSend (product, None)) =>
      if decide (length (results s) < capacity s)%nat
      then Some (mk (main s) (<[k := GDeferred]> (goroutines s))
                    (results s ++ [product]) (errors s) (wg s) (capacity s))
      else None
  | Some GDeferred =>
      match wg s with
      | O => None
      | S n => Some (mk (main s) (<[k := GExit]> (goroutines s)) (results s)
                        (errors s) n (capacity s))
      end
  | Some GExit | None => None
  end.

Definition step_at (api : ExternalAPI) (a : actor) (s : sys) : option sys :=
  match a with
  | Main => main_step s
  | Go k => go_step api k s
  end.

(** An execution under a schedule, the sequence of the threads chosen;
    choosing a thread that cannot move is not an execution. *)
Fixpoint run (api : ExternalAPI) (sched : list actor) (s : sys) : option sys :=
  match sched with
  | [] => Some s
  | a :: sched' => s' ← step_at api a s; run api sched' s'
  end.

(** The call [FetchProductsConcurrently(api, ids)] at its entry; [draws k]
    are the draws of the goroutine started for [ids[k]]. *)
Definition jobs (ids : list Z) (draws : nat -> api_draws)
  : list (Z * api_draws) :=
  imap (fun k id => (id, draws k)) ids.

Definition init (ids : list Z) (draws : nat -> api_draws) : sys :=
  mk (MLoop (jobs ids draws)) [] [] [] O (length ids).

(** [FetchProductsConcurrently] under a schedule: what the call returns if
    the schedule is an execution that reaches the [return]. *)
Definition FetchProductsConcurrently (api : ExternalAPI) (ids : list Z)
    (draws : nat -> api_draws) (sched : list actor)
  : option (list (option Product)) :=
  s ← run api sched (init ids draws);
  match main s with
  | MReturn products => Some products
  | _ => None
  end.

(** The pointers the goroutine of one job sends on [results], and the
    errors it sends on [errors]. *)
Definition fetched (api : ExternalAPI) (j : Z * api_draws)
  : list (option Product) :=
  match FetchProductDetails api j.2 j.1 with
  | (product, None) => [product]
  | (_, Some _) => []
  end.

Definition failed (api : ExternalAPI) (j : Z * api_draws) : list error :=
  match FetchProductDetails api j.2 j.1 with
  | (_, Some err) => [err]
  | (_, None) => []
  end.

(** What a goroutine has still to send on [results] and on [errors]. *)
Definition pending_results (api : ExternalAPI) (g : goroutine)
  : list (option Product) :=
  match g with
  | GCall id d => fetched api (id, d)
  | GSend (product, None) => [product]
  | GSend (_, Some _) | GDeferred | GExit => []
  end.

Definition pending_errors (api : ExternalAPI) (g : goroutine) : list error :=
  match g with
  | GCall id d => failed api (id, d)
  | GSend (_, Some err) => [err]
  | GSend (_, None) | GDeferred | GExit => []
  end.

(** The jobs the main thread has still to start. *)
Definition unspawned (m : main_thread) : list (Z * api_draws) :=
  match m with
  | MLoop rest => rest
  | MWait | MReturn _ => []
  end.

(** The goroutines that have not yet run [wg.Done()]. *)
Definition active (g : goroutine) : bool :=
  match g with
  | GExit => false
  | GCall _ _ | GSend _ | GDeferred => true
  end.

Fixpoint active_count (gs : list goroutine) : nat :=
  match gs with
  | [] => O
  | g :: gs' => ((if active g then 1 else 0) + active_count gs')%nat
  end.

(** The steps a thread has still to take. *)
Definition goroutine_weight (g : goroutine) : nat :=
  match g with
  | GCall _ _ => 3
  | GSend _ => 2
  | GDeferred => 1
  | GExit => 0
  end.

Definition main_weight (m : main_thread) : nat :=
  match m with
  | MLoop rest => 4 * length rest + 2
  | MWait => 1
  | MReturn _ => 0
  end.

Definition weight (s : sys) : nat :=
  main_weight (main s) + sum_list_with goroutine_weight (goroutines s).

(** What holds of every state the call reaches, for the jobs [js] it was
    entered with. *)
Record invariant (api : ExternalAPI) (js : list (Z * api_draws)) (s : sys)
  : Prop := mk_invariant {
  inv_results :
    results s ++ flat_map (pending_results api) (goroutines s)
      ++ flat_map (fetched api) (unspawned (main s))
    ≡ₚ flat_map (fetched api) js;
  inv_errors :
    errors s ++ flat_map (pending_errors api) (goroutines s)
      ++ flat_map (failed api) (unspawned (main s))
    ≡ₚ flat_map (failed api) js;
  inv_wg : wg s = active_count (goroutines s);
  inv_capacity : capacity s = length js;
  inv_return : forall products,
    main s = MReturn products -> products = results s /\ wg s = O
}.

(** The sequential round-robin schedule: the main thread starts every
    goroutine and reaches [wg.Wait()], every goroutine runs to its end in
    turn, the main thread returns. *)
Definition sequential_schedule (n : nat) : list actor :=
  replicate (S n) Main
  ++ flat_map (fun k => [Go k; Go k; Go k]) (seq 0 n)
  ++ [Main].

End Fetcher.

(** ** The rest of the package and its callers

    What follows embeds the code around the functions above: the texts of
    the errors, [Display], sequences of calls, and the HTTP handlers of the
    two [main] packages. *)

(** The texts given to [errors.New]: what [err.Error()] returns. *)
Definition error_message (e : error) : string :=
  match e with
  | ErrInsufficientStock => "insufficient stock"
  | ErrProductNotFound => "product not found"
  | ErrProductAlreadyExists => "product already exists"
  | ErrAPIRequestFailed => "API request failed"
  | ErrFailedToSaveProduct => "failed to save product"
  | ErrFailedToGetProduct => "failed to get product"
  | ErrFailedToDeleteProduct => "failed to delete product"
  | ErrFailedToFetchProductDetails => "failed to fetch product details"
  end.

(** [func (p *Product) Display() string]. The verbs [%d] and [%s] are the
    decimal numeral and the string itself; the text [fmt] produces for
    [%.2f] is taken as the parameter [format_2f]. *)
Definition Display (format_2f : float64 -> string) (p : Product) : string :=
  "ID: " +:+ pretty (ID p) +:+ ", Name: " +:+ Name p
  +:+ ", Price: " +:+ format_2f (Price p)
  +:+ ", Quantity: " +:+ pretty (Quantity p)
  +:+ ", Category: " +:+ Category p.

(** Every product is stored under its own ID. *)
Definition keyed_by_ID (m : gmap Z Product) : Prop :=
  forall k p, m !! k = Some p -> ID p = k.

(** A call of one of the two updates of an inventory, and the inventory
    after a sequence of them, whatever errors they return. A call panics
    on a nil map only, which it leaves nil: the inventory after the
    sequence is the same whether the sequence ends with that call or goes
    on under a caller that recovers. *)
Inductive inventory_call : Type :=
  | CallAddProduct (p : Product)
  | CallRemoveProduct (id : Z).

Definition apply_inventory_call (i : Inventory.t) (c : inventory_call)
  : Inventory.t :=
  match c with
  | CallAddProduct p => (Inventory.AddProduct p i).2
  | CallRemoveProduct id => (Inventory.RemoveProduct id i).2
  end.

Definition apply_inventory_calls (i : Inventory.t) (cs : list inventory_call)
  : Inventory.t :=
  fold_left apply_inventory_call cs i.

(** A call of one of the three methods of [ProductStorage], on the two
    implementations; a call that returns gives a pointer and an error,
    [Save] and [Delete] a [nil] pointer. *)
Inductive storage_call : Type :=
  | CallSave (p : Product)
  | CallGetByID (id : Z)
  | CallDelete (id : Z).

(** The outcome of [Save], with the [nil] pointer. *)
Definition with_nil_pointer (o : outcome go_error)
  : outcome (option loc * go_error) :=
  match o with
  | Returns e => Returns (None, e)
  | Panics => Panics
  end.

Definition memory_call (c : storage_call) (m : MemoryStorage.t)
    (h : gmap loc Product)
  : option (outcome (option loc * go_error) * MemoryStorage.t
            * gmap loc Product) :=
  match c with
  | CallSave p =>
      '(o, m') ← MemoryStorage.Save p m; Some (with_nil_pointer o, m', h)
  | CallGetByID id =>
      '(r, m', h') ← MemoryStorage.GetByID id m h; Some (Returns r, m', h')
  | CallDelete id =>
      '(e, m') ← MemoryStorage.Delete id m; Some (Returns (None, e), m', h)
  end.

Definition mock_call (d : db_draws) (c : storage_call)
    (mds : MockDatabaseStorage.t) (h : gmap loc Product)
  : option (outcome (option loc * go_error) * MockDatabaseStorage.t
            * gmap loc Product) :=
  match c with
  | CallSave p =>
      '(o, mds') ← MockDatabaseStorage.Save d p mds;
      Some (with_nil_pointer o, mds', h)
  | CallGetByID id =>
      '(r, mds', h') ← MockDatabaseStorage.GetByID d id mds h;
      Some (Returns r, mds', h')
  | CallDelete id =>
      '(e, mds') ← MockDatabaseStorage.Delete d id mds;
      Some (Returns (None, e), mds', h)
  end.

(** A sequence of calls, one after the other whatever errors they return:
    it ends with the first call that panics, and has no result when a call
    finds the mutex held. *)
Fixpoint memory_calls (cs : list storage_call) (m : MemoryStorage.t)
    (h : gmap loc Product)
  : option (outcome (MemoryStorage.t * gmap loc Product)) :=
  match cs with
  | [] => Some (Returns (m, h))
  | c :: cs' =>
      '(o, m', h') ← memory_call c m h;
      match o with
      | Returns _ => memory_calls cs' m' h'
      | Panics => Some Panics
      end
  end.

Fixpoint mock_calls (cs : list (db_draws * storage_call))
    (mds : MockDatabaseStorage.t) (h : gmap loc Product)
  : option (outcome (MockDatabaseStorage.t * gmap loc Product)) :=
  match cs with
  | [] => Some (Returns (mds, h))
  | (d, c) :: cs' =>
      '(o, mds', h') ← mock_call d c mds h;
      match o with
      | Returns _ => mock_calls cs' mds' h'
      | Panics => Some Panics
      end
  end.

(** The transient error of each method of [MockDatabaseStorage]. *)
Definition transient_error (c : storage_call) : error :=
  match c with
  | CallSave _ => ErrFailedToSaveProduct
  | CallGetByID _ => ErrFailedToGetProduct
  | CallDelete _ => ErrFailedToDeleteProduct
  end.

(** The memory storage holding what a mock database holds: the same map,
    nil or not, and the same state of the mutex. *)
Definition as_memory (mds : MockDatabaseStorage.t) : MemoryStorage.t :=
  MemoryStorage.build (MockDatabaseStorage.Mutex mds)
    (MockDatabaseStorage.table mds).

(** The goroutines that send on [results] along an execution, in the
    order of their sends. *)
Fixpoint senders (api : ExternalAPI) (sched : list Fetcher.actor)
    (s : Fetcher.sys) : list nat :=
  match sched with
  | [] => []
  | a :: sched' =>
      match Fetcher.step_at api a s with
      | None => []
      | Some s' =>
          match a with
          | Fetcher.Go k =>
              match Fetcher.goroutines s !! k with
              | Some (Fetcher.GSend (_, None)) => k :: senders api sched' s'
              | _ => senders api sched' s'
              end
          | Fetcher.Main => senders api sched' s'
          end
      end
  end.

(** The schedule under which the main thread starts every goroutine and
    the goroutines then run to their end one after the other, in the order
    [turns]; [Fetcher.sequential_schedule] is the one with the turns in the
    order of [ids]. *)
Definition ordered_schedule (n : nat) (turns : list nat)
  : list Fetcher.actor :=
  replicate (S n) Fetcher.Main
  ++ flat_map (fun k => [Fetcher.Go k; Fetcher.Go k; Fetcher.Go k]) turns
  ++ [Fetcher.Main].

(** What the goroutine started for [ids[k]] sends on [results]. *)
Definition fetched_at (api : ExternalAPI) (ids : list Z)
    (draws : nat -> api_draws) (k : nat) : list (option Product) :=
  match ids !! k with
  | Some id => Fetcher.fetched api (id, draws k)
  | None => []
  end.

(** Goroutine [k] works on job [k]: what holds of every state of the call
    besides [Fetcher.invariant]. *)
Definition works_on (api : ExternalAPI) (js : list (Z * api_draws))
    (k : nat) (g : Fetcher.goroutine) : Prop :=
  match g with
  | Fetcher.GCall id d => js !! k = Some (id, d)
  | Fetcher.GSend r =>
      exists id d, js !! k = Some (id, d) /\ r = FetchProductDetails api d id
  | Fetcher.GDeferred | Fetcher.GExit => True
  end.

Record indexed (api : ExternalAPI) (js : list (Z * api_draws))
    (s : Fetcher.sys) : Prop := mk_indexed {
  idx_goroutines : forall k g,
    Fetcher.goroutines s !! k = Some g -> works_on api js k g;
  idx_unspawned :
    drop (length (Fetcher.goroutines s)) js
    = Fetcher.unspawned (Fetcher.main s);
  idx_started : (length (Fetcher.goroutines s) <= length js)%nat
}.

(** Goroutine [k] has sent on one of the channels. *)
Definition has_sent_at (s : Fetcher.sys) (k : nat) : Prop :=
  Fetcher.goroutines s !! k = Some Fetcher.GDeferred
  \/ Fetcher.goroutines s !! k = Some Fetcher.GExit.

(** The pointer [x] is what the goroutine of job [k] fetched. *)
Definition fetched_by (api : ExternalAPI) (js : list (Z * api_draws))
    (k : nat) (x : option Product) : Prop :=
  exists id d, js !! k = Some (id, d)
    /\ FetchProductDetails api d id = (x, None).

(** ** The HTTP handlers

    Both [main] packages serve the same five routes from a package-level
    [inventory]. A request is what the handlers read of it: the [id]
    parameter of the path and the body. What the libraries do is taken as
    parameters: [strconv.Atoi] as [Atoi], [None] being an error, and
    [c.ShouldBindJSON] as [ShouldBindJSON], returning the text of its error
    or the product it has bound. A response is the status and the value
    passed to [c.JSON]. A handler that panics sends none itself; the
    router of [gin.Default()] recovers, and the server goes on with the
    next request. *)

Record request : Type := mk_request { param_id : string; json_body : string }.

Inductive body : Type :=
  | ErrorBody (message : string)
  | ProductBody (p : Product)
  | ProductsBody (ps : list Product)
  | NullBody.

Record response : Type := mk_response { status : Z; payload : body }.

(** The status codes of [net/http] the handlers use. *)
Definition StatusOK : Z := 200.
Definition StatusCreated : Z := 201.
Definition StatusNoContent : Z := 204.
Definition StatusBadRequest : Z := 400.
Definition StatusNotFound : Z := 404.
Definition StatusConflict : Z := 409.
Definition StatusInternalServerError : Z := 500.

(** The loop of [listProducts], appending to [products]. *)
Fixpoint listProducts_loop (order : list (Z * Product))
    (products : list Product) : list Product :=
  match order with
  | [] => products
  | (_, product) :: rest => listProducts_loop rest (products ++ [product])
  end.

(** *** The server that keeps the products in memory *)

Module Server.

Section Handlers.

Variable Atoi : string -> option Z.
Variable ShouldBindJSON : string -> string + Product.

(** [func createProduct(c *gin.Context)]; it panics where [AddProduct]
    does. *)
Definition createProduct (req : request) (inventory : Inventory.t)
  : outcome response * Inventory.t :=
  match ShouldBindJSON (json_body req) with
  | inl message =>
      (Returns (mk_response StatusBadRequest (ErrorBody message)), inventory)
  | inr product =>
      match Inventory.AddProduct product inventory with
      | (Returns (Some ErrProductAlreadyExists), inventory') =>
          (Returns (mk_response StatusConflict
                      (ErrorBody "product already exists")),
           inventory')
      | (Returns (Some err), inventory') =>
          (Returns (mk_response StatusInternalServerError
                      (ErrorBody (error_message err))), inventory')
      | (Returns None, inventory') =>
          (Returns (mk_response StatusCreated (ProductBody product)),
           inventory')
      | (Panics, inventory') => (Panics, inventory')
      end
  end.

(** [func getProduct(c *gin.Context)] *)
Definition getProduct (req : request) (inventory : Inventory.t)
  : response * Inventory.t :=
  match Atoi (param_id req) with
  | None =>
      (mk_response StatusBadRequest (ErrorBody "Invalid product ID"),
       inventory)
  | Some id =>
      match Inventory.Products inventory !! id with
      | None =>
          (mk_response StatusNotFound (ErrorBody "Product not found"),
           inventory)
      | Some product =>
          (mk_response StatusOK (ProductBody product), inventory)
      end
  end.

(** [func updateProduct(c *gin.Context)] *)
Definition updateProduct (req : request) (inventory : Inventory.t)
  : response * Inventory.t :=
  match Atoi (param_id req) with
  | None =>
      (mk_response StatusBadRequest (ErrorBody "Invalid product ID"),
       inventory)
  | Some id =>
      match ShouldBindJSON (json_body req) with
      | inl message =>
          (mk_response StatusBadRequest (ErrorBody message), inventory)
      | inr updatedProduct =>
          match Inventory.Products inventory !! id with
          | None =>
              (mk_response StatusNotFound (ErrorBody "Product not found"),
               inventory)
          | Some product =>
              let product :=
                {| ID := ID product;
                   Name := Name updatedProduct;
                   Price := Price updatedProduct;
                   Quantity := Quantity updatedProduct;
                   Category := Category updatedProduct |} in
              (mk_response StatusOK (ProductBody product),
               Inventory.mk (<[id := product]> (Inventory.Products inventory)))
          end
      end
  end.

(** [func deleteProduct(c *gin.Context)] *)
Definition deleteProduct (req : request) (inventory : Inventory.t)
  : response * Inventory.t :=
  match Atoi (param_id req) with
  | None =>
      (mk_response StatusBadRequest (ErrorBody "Invalid product ID"),
       inventory)
  | Some id =>
      match Inventory.Products inventory !! id with
      | None =>
          (mk_response StatusNotFound (ErrorBody "Product not found"),
           inventory)
      | Some _ =>
          (mk_response StatusNoContent NullBody,
           Inventory.mk (delete id (Inventory.Products inventory)))
      end
  end.

(** [func listProducts(c *gin.Context)], with the visiting order of its
    [range] loop. *)
Definition listProducts (order : list (Z * Product))
    (inventory : Inventory.t) : response * Inventory.t :=
  (mk_response StatusOK (ProductsBody (listProducts_loop order [])),
   inventory).

(** A request on one of the four routes that take one, and the server
    after a sequence of them. *)
Inductive call : Type :=
  | Create (req : request)
  | Get (req : request)
  | Update (req : request)
  | Delete (req : request).

(** The handlers that cannot panic return their response. *)
Definition answered (r : response * Inventory.t)
  : outcome response * Inventory.t :=
  (Returns r.1, r.2).

Definition serve (inventory : Inventory.t) (c : call)
  : outcome response * Inventory.t :=
  match c with
  | Create req => createProduct req inventory
  | Get req => answered (getProduct req inventory)
  | Update req => answered (updateProduct req inventory)
  | Delete req => answered (deleteProduct req inventory)
  end.

Fixpoint serve_all (cs : list call) (inventory : Inventory.t)
  : list (outcome response) * Inventory.t :=
  match cs with
  | [] => ([], inventory)
  | c :: cs' =>
      let '(r, inventory') := serve inventory c in
      let '(rs, inventory'') := serve_all cs' inventory' in
      (r :: rs, inventory'')
  end.

End Handlers.

End Server.

(** *** The server that writes to a database and publishes events

    The database and the message bus are two more parameters: a state
    each, and what the calls of [gorm] and [kafka-go] return and leave
    behind. [First] is [db.Where("id = ?", id).First(&p).Error] sorted as
    the handler sorts it. *)

Inductive first_result : Type :=
  | FirstFound
  | FirstNotFound
  | FirstFailed (message : string).

(** [type OrderCreated struct]; [OrderQuantity] is its field [Quantity]. *)
Record OrderCreated : Type := mkOrderCreated {
  OrderID : Z;
  ProductID : Z;
  OrderQuantity : Z;
  Status : string
}.

Module PersistentServer.

Section Handlers.

Variables DB Kafka : Type.
Variable Atoi : string -> option Z.
Variable ShouldBindJSON : string -> string + Product.
Variable First : DB -> Z -> first_result.
Variable DBCreate : DB -> Product -> option string * Product * DB.
Variable DBSave : DB -> Product -> option string * Product * DB.
Variable DBDelete : DB -> Z -> option string * DB.
Variable Marshal : OrderCreated -> option string.
Variable WriteMessages : Kafka -> string -> option string * Kafka.

(** The package-level variables. *)
Record world : Type := mk_world {
  inventory : Inventory.t;
  db : DB;
  kafkaWriter : Kafka
}.

(** The end of [updateProduct] and of [deleteProduct]: marshal the event,
    publish it, answer. *)
Definition publish (event : OrderCreated) (done : response) (w : world)
  : response * world :=
  match Marshal event with
  | None =>
      (mk_response StatusInternalServerError
         (ErrorBody "Failed to serialize order event"), w)
  | Some orderCreatedJSON =>
      match WriteMessages (kafkaWriter w) orderCreatedJSON with
      | (Some _, kafka') =>
          (mk_response StatusInternalServerError
             (ErrorBody "Failed to publish order event"),
           mk_world (inventory w) (db w) kafka')
      | (None, kafka') => (done, mk_world (inventory w) (db w) kafka')
      end
  end.

(** [func createProduct(c *gin.Context)] *)
Definition createProduct (req : request) (w : world) : response * world :=
  match ShouldBindJSON (json_body req) with
  | inl message => (mk_response StatusBadRequest (ErrorBody message), w)
  | inr product =>
      match First (db w) (ID product) with
      | FirstFound =>
          (mk_response StatusConflict
             (ErrorBody "Product with the same ID already exists"), w)
      | FirstFailed message =>
          (mk_response StatusInternalServerError (ErrorBody message), w)
      | FirstNotFound =>
          match DBCreate (db w) product with
          | (Some message, _, db') =>
              (mk_response StatusInternalServerError (ErrorBody message),
               mk_world (inventory w) db' (kafkaWriter w))
          | (None, product', db') =>
              (mk_response StatusOK (ProductBody product'),
               mk_world (inventory w) db' (kafkaWriter w))
          end
      end
  end.

(** [func getProduct(c *gin.Context)] *)
Definition getProduct (req : request) (w : world) : response * world :=
  match Atoi (param_id req) with
  | None =>
      (mk_response StatusBadRequest (ErrorBody "Invalid product ID"), w)
  | Some id =>
      match Inventory.Products (inventory w) !! id with
      | None =>
          (mk_response StatusNotFound (ErrorBody "Product not found"), w)
      | Some product => (mk_response StatusOK (ProductBody product), w)
      end
  end.

(** [func updateProduct(c *gin.Context)] *)
Definition updateProduct (req : request) (w : world) : response * world :=
  match Atoi (param_id req) with
  | None =>
      (mk_response StatusBadRequest (ErrorBody "Invalid product ID"), w)
  | Some id =>
      match ShouldBindJSON (json_body req) with
      | inl message => (mk_response StatusBadRequest (ErrorBody message), w)
      | inr updatedProduct =>
          match Inventory.Products (inventory w) !! id with
          | None =>
              (mk_response StatusNotFound (ErrorBody "Product not found"), w)
          | Some product =>
              let product :=
                {| ID := ID product;
                   Name := Name updatedProduct;
                   Price := Price updatedProduct;
                   Quantity := Quantity updatedProduct;
                   Category := Category updatedProduct |} in
              let inventory' :=
                Inventory.mk
                  (<[id := product]> (Inventory.Products (inventory w))) in
              match DBSave (db w) product with
              | (Some message, _, db') =>
                  (mk_response StatusInternalServerError (ErrorBody message),
                   mk_world inventory' db' (kafkaWriter w))
              | (None, product', db') =>
                  publish
                    (mkOrderCreated id id (Quantity product') "updated")
                    (mk_response StatusOK (ProductBody product'))
                    (mk_world inventory' db' (kafkaWriter w))
              end
          end
      end
  end.

(** [func deleteProduct(c *gin.Context)] *)
Definition deleteProduct (req : request) (w : world) : response * world :=
  match Atoi (param_id req) with
  | None =>
      (mk_response StatusBadRequest (ErrorBody "Invalid product ID"), w)
  | Some id =>
      match Inventory.Products (inventory w) !! id with
      | None =>
          (mk_response StatusNotFound (ErrorBody "Product not found"), w)
      | Some _ =>
          let inventory' :=
            Inventory.mk (delete id (Inventory.Products (inventory w))) in
          match DBDelete (db w) id with
          | (Some message, db') =>
              (mk_response StatusInternalServerError (ErrorBody message),
               mk_world inventory' db' (kafkaWriter w))
          | (None, db') =>
              publish (mkOrderCreated id id 0 "deleted")
                (mk_response StatusNoContent NullBody)
                (mk_world inventory' db' (kafkaWriter w))
          end
      end
  end.

(** [func listProducts(c *gin.Context)], with the visiting order of its
    [range] loop. *)
Definition listProducts (order : list (Z * Product)) (w : world)
  : response * world :=
  (mk_response StatusOK (ProductsBody (listProducts_loop order [])), w).

Inductive call : Type :=
  | Create (req : request)
  | Get (req : request)
  | Update (req : request)
  | Delete (req : request).

Definition serve (w : world) (c : call) : response * world :=
  match c with
  | Create req => createProduct req w
  | Get req => getProduct req w
  | Update req => updateProduct req w
  | Delete req => deleteProduct req w
  end.

Fixpoint serve_all (cs : list call) (w : world) : list response * world :=
  match cs with
  | [] => ([], w)
  | c :: cs' =>
      let '(r, w') := serve w c in
      let '(rs, w'') := serve_all cs' w' in
      (r :: rs, w'')
  end.

End Handlers.

End PersistentServer.

(** The price a sequence of calls leaves: the argument of its last
    [UpdatePrice]; and the calls that move stock. *)
Definition last_price (p : Product) (cs : list mutation) : float64 :=
  fold_left (fun x c => match c with
                        | CallUpdatePrice y => y
                        | CallSell _ | CallRestock _ => x
                        end) cs (Price p).

Definition moves_stock (c : mutation) : bool :=
  match c with
  | CallSell _ | CallRestock _ => true
  | CallUpdatePrice _ => false
  end.

(** * Properties *)

(** ** Arithmetic of [int] *)

Section IntFacts.

Lemma wrap_in_range (z : Z) : is_int z -> wrap z = z.
Proof.
  unfold is_int, min_int, max_int, wrap, int_bits. intros Hz.
  rewrite Z.mod_small; lia.
Qed.

Lemma wrap_is_int (z : Z) : is_int (wrap z).
Proof.
  unfold is_int, min_int, max_int, wrap, int_bits.
  pose proof (Z.mod_pos_bound (z + 2 ^ (64 - 1)) (2 ^ 64)). lia.
Qed.

Lemma wrap_add_l (a b : Z) : wrap (wrap a + b) = wrap (a + b).
Proof.
  unfold wrap. f_equal.
  replace ((a + 2 ^ (int_bits - 1)) mod 2 ^ int_bits - 2 ^ (int_bits - 1)
           + b + 2 ^ (int_bits - 1))
    with ((a + 2 ^ (int_bits - 1)) mod 2 ^ int_bits + b) by lia.
  rewrite Zplus_mod_idemp_l. f_equal. lia.
Qed.

Lemma wrap_add_r (a b : Z) : wrap (a + wrap b) = wrap (a + b).
Proof. rewrite (Z.add_comm a), wrap_add_l. f_equal. lia. Qed.

End IntFacts.

(** ** [Product] *)

Section ProductFacts.

Lemma Sell_fields (n : Z) (p : Product) :
  ID (Sell n p).2 = ID p /\ Name (Sell n p).2 = Name p
  /\ Price (Sell n p).2 = Price p /\ Category (Sell n p).2 = Category p.
Proof. unfold Sell. destruct (GoInt.ltb _ _); done. Qed.

(** C2, as the code has it: [Sell(n)] with [n <= q] succeeds and leaves
    [q - n] reduced to the range of [int], which is [q - n] itself when
    that does not exceed [max_int], in particular for every [n >= 0];
    [Sell(n)] with [n > q] returns [ErrInsufficientStock] and leaves the
    product as it was; no other field changes in either case. *)
Theorem Sell_spec (p : Product) (n : Z) (Hq : is_int (Quantity p)) :
  (n <= Quantity p ->
     (Sell n p).1 = None
     /\ Quantity (Sell n p).2 = wrap (Quantity p - n)
     /\ (Quantity p - n <= max_int -> Quantity (Sell n p).2 = Quantity p - n)
     /\ (0 <= n -> Quantity (Sell n p).2 = Quantity p - n))
  /\ (Quantity p < n -> Sell n p = (Some ErrInsufficientStock, p))
  /\ ID (Sell n p).2 = ID p /\ Name (Sell n p).2 = Name p
  /\ Price (Sell n p).2 = Price p /\ Category (Sell n p).2 = Category p.
Proof.
  split; [|split; [|apply Sell_fields]].
  - intros Hn. unfold Sell, GoInt.ltb.
    destruct (Z.ltb_spec (Quantity p) n) as [?|_]; [lia|]. simpl.
    unfold GoInt.sub. repeat split.
    + intros Hmax. apply wrap_in_range. unfold is_int, min_int, int_bits. lia.
    + intros H0. apply wrap_in_range.
      unfold is_int, min_int, max_int, int_bits in *. lia.
  - intros Hn. unfold Sell, GoInt.ltb.
    destruct (Z.ltb_spec (Quantity p) n); [done|lia].
Qed.

Lemma Sell_spec_witness :
  let p := mkProduct 1 "Test Product" f64_zero 10 "Test" in
  is_int (Quantity p)
  /\ (Sell 5 p).1 = None /\ Quantity (Sell 5 p).2 = 5
  /\ Sell 11 p = (Some ErrInsufficientStock, p).
Proof.
  intros p.
  assert (Hq : is_int (Quantity p))
    by (unfold is_int, min_int, max_int, int_bits; simpl; lia).
  destruct (Sell_spec p 5 Hq) as [Hle _].
  destruct (Sell_spec p 11 Hq) as (_ & Hgt & _).
  destruct Hle as (He & _ & _ & Hsub); [simpl; lia|].
  split; [exact Hq|]. split; [exact He|]. split; [apply Hsub; lia|].
  apply Hgt; simpl; lia.
Defined.

(** C2 fails as stated: at stock 0, selling [min_int] passes the stock test
    and wraps the stock around to [min_int], not to [0 - min_int]. *)
Lemma Sell_wraps_around :
  let p := mkProduct 1 "Test Product" f64_zero 0 "Test" in
  let n := min_int in
  wf_product p /\ is_int n /\ n <= Quantity p
  /\ Sell n p = (None, mkProduct 1 "Test Product" f64_zero min_int "Test")
  /\ Quantity (Sell n p).2 <> Quantity p - n.
Proof.
  intros p n. unfold wf_product, is_int, is_float64.
  repeat split; try done; vm_compute; congruence.
Qed.

Lemma apply_mutations_cons (p : Product) (c : mutation) (cs : list mutation) :
  apply_mutations p (c :: cs) = apply_mutations (apply_mutation p c) cs.
Proof. reflexivity. Qed.

Lemma call_in_range_nonneg (p : Product) (c : mutation) :
  0 <= Quantity p -> call_in_range p c -> 0 <= Quantity (apply_mutation p c).
Proof.
  intros Hp Hc. destruct c as [n|n|x]; simpl in *.
  - unfold Sell, GoInt.ltb.
    destruct (Z.ltb_spec (Quantity p) n); simpl; [done|].
    unfold GoInt.sub. rewrite wrap_in_range; [lia|].
    unfold is_int, min_int, int_bits. lia.
  - unfold GoInt.add. rewrite wrap_in_range; [lia|].
    unfold is_int, min_int, int_bits. lia.
  - done.
Qed.

(** C3, as the code has it: a non-negative [Quantity] stays non-negative
    along every sequence of [Sell], [Restock] and [UpdatePrice] calls whose
    [Restock] arguments are non-negative and whose differences and sums do
    not exceed [max_int]. *)
Theorem Quantity_nonneg_invariant (p : Product) (cs : list mutation) :
  0 <= Quantity p -> calls_in_range p cs ->
  0 <= Quantity (apply_mutations p cs).
Proof.
  revert p. induction cs as [|c cs IH]; intros p Hp Hcs; [done|].
  destruct Hcs as [Hc Hcs]. rewrite apply_mutations_cons.
  apply IH; [by apply call_in_range_nonneg|done].
Qed.

Lemma Quantity_nonneg_invariant_witness :
  let p := mkProduct 1 "Test Product" f64_zero 10 "Test" in
  let cs := [CallSell 5; CallSell 10; CallRestock 7; CallSell (-3);
             CallUpdatePrice (f64_of_int 20); CallSell 15] in
  Quantity (apply_mutations p cs) = 0 /\ 0 <= Quantity (apply_mutations p cs).
Proof.
  intros p cs. split; [reflexivity|].
  apply (Quantity_nonneg_invariant p cs); [simpl; lia|].
  vm_compute. repeat split; congruence.
Defined.

(** C3 fails as stated: restocking by a negative amount, or selling a
    negative amount that overflows, takes a non-negative stock below zero. *)
Lemma Quantity_goes_negative :
  let p := mkProduct 1 "Test Product" f64_zero 0 "Test" in
  wf_product p /\ 0 <= Quantity p
  /\ Quantity (apply_mutations p [CallRestock (-5)]) = -5
  /\ Quantity (apply_mutations p [CallRestock (-5)]) < 0
  /\ Quantity (apply_mutations p [CallSell min_int]) < 0.
Proof.
  intros p. unfold wf_product, is_int, is_float64.
  repeat split; try done; vm_compute; congruence.
Qed.

(** C9: [Restock(n)] then [Restock(m)] leaves the product as one
    [Restock(n+m)] does, whether [n+m] is the mathematical sum or the sum
    the caller forms in [int]; two calls commute; [Restock] adds to
    [Quantity] unconditionally and changes no other field. *)
Theorem Restock_additive (p : Product) (n m : Z) :
  Restock m (Restock n p) = Restock (n + m) p
  /\ Restock m (Restock n p) = Restock (GoInt.add n m) p
  /\ Restock m (Restock n p) = Restock n (Restock m p)
  /\ Quantity (Restock n p) = wrap (Quantity p + n)
  /\ ID (Restock n p) = ID p /\ Name (Restock n p) = Name p
  /\ Price (Restock n p) = Price p /\ Category (Restock n p) = Category p.
Proof.
  unfold Restock, GoInt.add; simpl. repeat split; f_equal.
  - rewrite wrap_add_l. f_equal. lia.
  - rewrite wrap_add_l, wrap_add_r. f_equal. lia.
  - rewrite !wrap_add_l. f_equal. lia.
Qed.

End ProductFacts.

(** ** [Inventory] *)

Section InventoryFacts.

Import Inventory.

(** The entries of a map that has been made. *)
Lemma Products_mk (m : gmap Z Product) : Products (Inventory.mk m) = m.
Proof. reflexivity. Qed.

(** C6, as the code has it: on an inventory whose map has been made,
    [AddProduct(p)] on a present [p.ID] returns [ErrProductAlreadyExists]
    and leaves the inventory as it was; on an absent [p.ID] it succeeds,
    stores [p] under [p.ID] and leaves every other entry as it was; so a
    second add under the same ID fails and the product of the first add
    stays. On the nil map of the zero value every ID is absent, and
    [AddProduct(p)] panics, leaving the map nil. *)
Theorem AddProduct_spec (i : Inventory.t) (p : Product) :
  (is_Some (Products i !! ID p) ->
     AddProduct p i = (Returns (Some ErrProductAlreadyExists), i))
  /\ (made i = true -> Products i !! ID p = None ->
        (AddProduct p i).1 = Returns None
        /\ made (AddProduct p i).2 = true
        /\ Products (AddProduct p i).2 !! ID p = Some p
        /\ (forall k, k <> ID p ->
              Products (AddProduct p i).2 !! k = Products i !! k)
        /\ (forall p', ID p' = ID p ->
              AddProduct p' (AddProduct p i).2
              = (Returns (Some ErrProductAlreadyExists), (AddProduct p i).2)))
  /\ (made i = true -> forall p', ID p' = ID p ->
        (AddProduct p' (AddProduct p i).2).1
        = Returns (Some ErrProductAlreadyExists))
  /\ (made i = false ->
        Products i !! ID p = None /\ AddProduct p i = (Panics, i)).
Proof.
  destruct i as [[m|]]; unfold AddProduct, made, Products; simpl.
  - split; [|split; [|split]].
    + intros [q Hq]. by rewrite Hq.
    + intros _ Hnone. rewrite Hnone. simpl.
      split; [done|]. split; [done|]. split; [apply lookup_insert_eq|]. split.
      * intros k Hk. by apply lookup_insert_ne.
      * intros p' Hid. by rewrite Hid, lookup_insert_eq.
    + intros _ p' Hid. destruct (m !! ID p) as [q|] eqn:Hq; simpl.
      * by rewrite Hid, Hq.
      * by rewrite Hid, lookup_insert_eq.
    + done.
  - split; [|split; [|split]].
    + intros [q Hq]. by rewrite lookup_empty in Hq.
    + done.
    + done.
    + intros _. by rewrite lookup_empty.
Qed.

(** C6 fails as stated: the zero value [Inventory{}] holds no product
    under any ID, and [AddProduct] on it does not succeed: the assignment
    to the nil map panics. *)
Lemma AddProduct_panics_on_nil_map :
  let p := mkProduct 1 "Test Product" f64_zero 0 "" in
  Products Inventory.zero !! ID p = None
  /\ AddProduct p Inventory.zero = (Panics, Inventory.zero)
  /\ (AddProduct p Inventory.zero).1 <> Returns None.
Proof.
  intros p.
  assert (Hadd : AddProduct p Inventory.zero = (Panics, Inventory.zero))
    by reflexivity.
  split; [apply lookup_empty|]. split; [exact Hadd|].
  rewrite Hadd. discriminate.
Qed.

(** The slice [ListByCategory] builds: the matching entries in visiting
    order. *)
Lemma ListByCategory_loop_filter (order : list (Z * Product)) (c : string)
    (acc : list Product) :
  ListByCategory_loop order c acc
  = acc ++ (filter (fun kp : Z * Product => Category kp.2 = c) order).*2.
Proof.
  revert acc. induction order as [|[k p] rest IH]; intros acc; simpl.
  - by rewrite app_nil_r.
  - destruct (String.eqb_spec (Category p) c) as [Heq|Hne].
    + rewrite IH, filter_cons_True by done. simpl. by rewrite <- app_assoc.
    + rewrite IH, filter_cons_False by done. done.
Qed.

Lemma range_of_lookup (m : gmap Z Product) (order : list (Z * Product)) k p :
  range_of m order -> (k, p) ∈ order <-> m !! k = Some p.
Proof.
  unfold range_of. intros Hperm. rewrite Hperm. apply elem_of_map_to_list.
Qed.

Lemma range_of_NoDup_keys (m : gmap Z Product) (order : list (Z * Product)) :
  range_of m order -> NoDup order.*1.
Proof.
  unfold range_of. intros Hperm. rewrite Hperm. apply NoDup_fst_map_to_list.
Qed.

Lemma NoDup_keys_filter (P : Z * Product -> Prop) `{forall x, Decision (P x)}
    (l : list (Z * Product)) :
  NoDup l.*1 -> NoDup (filter P l).*1.
Proof.
  induction l as [|[k p] l IH]; simpl; [done|].
  rewrite NoDup_cons. intros [Hk Hl].
  destruct (decide (P (k, p))).
  - rewrite filter_cons_True by done. simpl. apply NoDup_cons. split; [|auto].
    intros Hin. apply Hk. apply list_elem_of_fmap in Hin as [[k' p'] [-> Hin]].
    apply list_elem_of_filter in Hin as [_ Hin].
    apply list_elem_of_fmap. by exists (k', p').
  - rewrite filter_cons_False by done. auto.
Qed.

(** C7: [ListByCategory(c)] lists every entry whose product has category
    [c] exactly once and nothing else, in the visiting order of the map; it
    is the empty slice when no product matches; the listed products are
    pairwise different when every product is stored under its own ID. *)
Theorem ListByCategory_spec (i : Inventory.t) (order : list (Z * Product))
    (c : string) :
  range_of (Products i) order ->
  (exists ks : list Z,
      NoDup ks
      /\ (forall k, k ∈ ks <-> exists p, Products i !! k = Some p /\ Category p = c)
      /\ Forall2 (fun k p => Products i !! k = Some p) ks
           (ListByCategory i order c))
  /\ (forall p, p ∈ ListByCategory i order c
        <-> exists k, Products i !! k = Some p /\ Category p = c)
  /\ ListByCategory i order c
     ≡ₚ (filter (fun kp : Z * Product => Category kp.2 = c)
           (map_to_list (Products i))).*2
  /\ ((forall k p, Products i !! k = Some p -> Category p <> c) ->
        ListByCategory i order c = [])
  /\ ((forall k p, Products i !! k = Some p -> ID p = k) ->
        NoDup (ListByCategory i order c)).
Proof.
  intros Hrange. unfold ListByCategory.
  rewrite ListByCategory_loop_filter, app_nil_l.
  set (matching := filter (fun kp : Z * Product => Category kp.2 = c) order).
  assert (Hin : forall k p, (k, p) ∈ matching
                  <-> Products i !! k = Some p /\ Category p = c).
  { intros k p. unfold matching. rewrite list_elem_of_filter. simpl.
    rewrite (range_of_lookup _ _ _ _ Hrange). tauto. }
  assert (Hnodup : NoDup matching.*1).
  { apply NoDup_keys_filter. by eapply range_of_NoDup_keys. }
  assert (Hall : Forall2 (fun k p => Products i !! k = Some p)
                   matching.*1 matching.*2).
  { apply Forall2_fmap, Forall2_same_length_lookup_2; [done|].
    intros n [k p] [k' p'] H1 H2. simpl. rewrite H1 in H2.
    injection H2 as <- <-. apply (Hin k p), list_elem_of_lookup. eauto. }
  split; [|split; [|split; [|split]]].
  - exists matching.*1. split; [done|]. split; [|done].
    intros k. rewrite list_elem_of_fmap. split.
    + intros [[k' p] [-> Hkp]]. exists p. by apply Hin.
    + intros [p Hp]. exists (k, p). split; [done|]. by apply Hin.
  - intros p. rewrite list_elem_of_fmap. split.
    + intros [[k p'] [-> Hkp]]. exists k. by apply Hin.
    + intros [k Hp]. exists (k, p). split; [done|]. by apply Hin.
  - unfold matching. by rewrite Hrange.
  - intros Hnone. clear Hnodup Hall.
    destruct matching as [|[k p] rest]; [done|].
    exfalso. destruct (Hin k p) as [[Hl Hc] _]; [left|]. by eapply Hnone.
  - intros Hkeyed. apply (NoDup_fmap_1 ID).
    replace (ID <$> matching.*2) with matching.*1; [done|].
    rewrite <- list_fmap_compose. apply list_fmap_ext.
    intros n [k p] Hn. simpl. symmetry. apply Hkeyed.
    apply (Hin k p), list_elem_of_lookup. eauto.
Qed.

Lemma ListByCategory_spec_witness :
  let p1 := mkProduct 1 "Product 1" f64_zero 0 "Category 1" in
  let p2 := mkProduct 2 "Product 2" f64_zero 0 "Category 2" in
  let p3 := mkProduct 3 "Product 3" f64_zero 0 "Category 1" in
  let i := Inventory.mk (<[3 := p3]> (<[2 := p2]> (<[1 := p1]> ∅))) in
  let order := [(1, p1); (3, p3); (2, p2)] in
  range_of (Products i) order
  /\ ListByCategory i order "Category 1" = [p1; p3]
  /\ NoDup (ListByCategory i order "Category 1").
Proof.
  intros p1 p2 p3 i order.
  assert (Hrange : range_of (Products i) order).
  { unfold range_of. vm_compute. solve_Permutation. }
  split; [exact Hrange|]. split; [reflexivity|].
  destruct (ListByCategory_spec i order "Category 1" Hrange)
    as (_ & _ & _ & _ & Hnodup).
  apply Hnodup. intros k p.
  unfold i, Products, Inventory.mk. cbn [table].
  destruct (decide (k = 3)) as [->|?];
    [rewrite lookup_insert_eq; by intros [= <-]|rewrite lookup_insert_ne by done].
  destruct (decide (k = 2)) as [->|?];
    [rewrite lookup_insert_eq; by intros [= <-]|rewrite lookup_insert_ne by done].
  destruct (decide (k = 1)) as [->|?];
    [rewrite lookup_insert_eq; by intros [= <-]|rewrite lookup_insert_ne by done].
  by rewrite lookup_empty.
Defined.

Lemma TotalValue_loop_app (order1 order2 : list (Z * Product))
    (total : float64) :
  TotalValue_loop (order1 ++ order2) total
  = TotalValue_loop order2 (TotalValue_loop order1 total).
Proof.
  revert total. induction order1 as [|[k p] rest IH]; intros total; simpl;
    [done|apply IH].
Qed.

Lemma range_of_empty (order : list (Z * Product)) :
  range_of ∅ order -> order = [].
Proof.
  unfold range_of. rewrite map_to_list_empty. apply Permutation_nil_r.
Qed.

Lemma range_of_two (k1 k2 : Z) (p1 p2 : Product)
    (order : list (Z * Product)) :
  k1 <> k2 -> range_of (<[k1 := p1]> {[k2 := p2]}) order ->
  order = [(k1, p1); (k2, p2)] \/ order = [(k2, p2); (k1, p1)].
Proof.
  unfold range_of. intros Hne Hperm. apply Permutation_length_2_inv.
  rewrite Hperm, map_to_list_insert by (by apply lookup_singleton_ne).
  by rewrite map_to_list_singleton.
Qed.

(** C8, as the code has it: [TotalValue()] starts from [0.0] and adds
    [Price * float64(Quantity)] in [float64] for one entry after the other
    in the visiting order of the map; it is [0.0] for the empty inventory, and [40.0] for an
    inventory holding exactly (price 10, quantity 2) and (price 20,
    quantity 1), in either visiting order. *)
Theorem TotalValue_spec (i : Inventory.t) :
  TotalValue i [] = f64_zero
  /\ (forall order k p,
        TotalValue i (order ++ [(k, p)])
        = f64_add (TotalValue i order)
            (f64_mul (Price p) (f64_of_int (Quantity p))))
  /\ (forall order,
        Products i = ∅ -> range_of (Products i) order ->
        TotalValue i order = f64_zero)
  /\ (forall order k1 k2 p1 p2,
        k1 <> k2 -> Products i = <[k1 := p1]> {[k2 := p2]} ->
        Price p1 = f64_of_int 10 -> Quantity p1 = 2 ->
        Price p2 = f64_of_int 20 -> Quantity p2 = 1 ->
        range_of (Products i) order ->
        TotalValue i order = f64_of_int 40).
Proof.
  split; [done|]. split; [|split].
  - intros order k p. unfold TotalValue. by rewrite TotalValue_loop_app.
  - intros order Hi Hrange. rewrite Hi in Hrange.
    by rewrite (range_of_empty order Hrange).
  - intros order k1 k2 p1 p2 Hne Hi Hp1 Hq1 Hp2 Hq2 Hrange.
    rewrite Hi in Hrange.
    destruct (range_of_two k1 k2 p1 p2 order Hne Hrange) as [-> | ->];
      unfold TotalValue; simpl; rewrite Hp1, Hq1, Hp2, Hq2;
      vm_compute; reflexivity.
Qed.

(** C8 fails as stated: one inventory has two visiting orders with two
    different totals, [1e16] and [1e16 + 2]. Its three products
    [Price * float64(Quantity)] are [1e16], [1] and [1] without rounding,
    and only the second total is their sum; so the total is not a function
    of the products stored. *)
Lemma TotalValue_depends_on_order :
  let p1 := mkProduct 1 "Product 1" (f64_of_int (10 ^ 16)) 1 "Test" in
  let p2 := mkProduct 2 "Product 2" (f64_of_int 1) 1 "Test" in
  let p3 := mkProduct 3 "Product 3" (f64_of_int 1) 1 "Test" in
  let i := Inventory.mk (<[1 := p1]> (<[2 := p2]> (<[3 := p3]> ∅))) in
  let order := [(1, p1); (2, p2); (3, p3)] in
  let order' := [(2, p2); (3, p3); (1, p1)] in
  (wf_product p1 /\ wf_product p2 /\ wf_product p3)
  /\ range_of (Products i) order /\ range_of (Products i) order'
  /\ (f64_mul (Price p1) (f64_of_int (Quantity p1)) = f64_of_int (10 ^ 16)
      /\ f64_mul (Price p2) (f64_of_int (Quantity p2)) = f64_of_int 1
      /\ f64_mul (Price p3) (f64_of_int (Quantity p3)) = f64_of_int 1)
  /\ TotalValue i order = f64_of_int (10 ^ 16)
  /\ TotalValue i order' = f64_of_int (10 ^ 16 + 1 + 1)
  /\ TotalValue i order <> TotalValue i order'
  /\ ~ (exists total : Inventory.t -> float64,
          forall j visit, range_of (Products j) visit ->
                          TotalValue j visit = total j).
Proof.
  intros p1 p2 p3 i order order'.
  assert (Hrange : range_of (Products i) order)
    by (unfold range_of; vm_compute; solve_Permutation).
  assert (Hrange' : range_of (Products i) order')
    by (unfold range_of; vm_compute; solve_Permutation).
  assert (Hne : TotalValue i order <> TotalValue i order')
    by (vm_compute; congruence).
  split; [|split; [done|split; [done|split; [|split; [|split; [|split]]]]]].
  - unfold wf_product, is_int, is_float64.
    repeat split; try done; vm_compute; congruence.
  - repeat split; vm_compute; reflexivity.
  - vm_compute. reflexivity.
  - vm_compute. reflexivity.
  - exact Hne.
  - intros [total Htotal]. apply Hne.
    by rewrite (Htotal i order Hrange), (Htotal i order' Hrange').
Qed.

End InventoryFacts.

(** ** Pointers *)

Section HeapFacts.

(** Calls through a pointer write to the cell it points to and to no
    other. *)
Lemma calls_through_spec (l : loc) (cs : list mutation) (p : Product)
    (h : gmap loc Product) :
  h !! l = Some p ->
  exists h', calls_through l cs h = Some h'
    /\ h' !! l = Some (apply_mutations p cs)
    /\ (forall l', l' <> l -> h' !! l' = h !! l').
Proof.
  revert p h. induction cs as [|c cs IH]; intros p h Hl; simpl.
  - by exists h.
  - unfold call_through at 1. rewrite Hl. simpl.
    destruct (IH (apply_mutation p c) (<[l := apply_mutation p c]> h))
      as (h' & Hrun & Hat & Hother); [apply lookup_insert_eq|].
    exists h'. split; [done|]. split; [done|].
    intros l' Hne. rewrite Hother by done. by apply lookup_insert_ne.
Qed.

End HeapFacts.

(** ** [MemoryStorage] *)

Section MemoryStorageFacts.

Import MemoryStorage.

(** C5, as the code has it: on a storage whose mutex is free and whose
    map has been made, as [NewMemoryStorage] makes it, [Save(p)] succeeds
    and stores [p] under [p.ID], present before or not, leaving the other
    entries as they were; on the nil map of the zero value [Save(p)]
    panics and leaves the storage as it was. On every storage whose mutex
    is free, [GetByID(id)] returns a pointer to the product stored under
    [id] and fails with [ErrProductNotFound] exactly when there is none;
    [Delete(id)] fails with [ErrProductNotFound] exactly when there is
    none and otherwise removes the entry, leaving the other entries as they
    were. Every call releases the mutex. *)
Theorem MemoryStorage_contract (m : MemoryStorage.t) :
  Mutex m = false ->
  (made m = true ->
     forall p, exists m',
       Save p m = Some (Returns None, m') /\ Mutex m' = false
       /\ made m' = true
       /\ Products m' !! ID p = Some p
       /\ (forall k, k <> ID p -> Products m' !! k = Products m !! k))
  /\ (made m = false -> forall p, Save p m = Some (Panics, m))
  /\ (forall id h,
        match Products m !! id with
        | Some p => exists l,
            GetByID id m h = Some ((Some l, None), m, <[l := p]> h)
            /\ h !! l = None
        | None => GetByID id m h = Some ((None, Some ErrProductNotFound), m, h)
        end)
  /\ (forall id h,
        Products m !! id = None
        <-> exists r m' h',
              GetByID id m h = Some ((r, Some ErrProductNotFound), m', h'))
  /\ (forall id,
        match Products m !! id with
        | Some _ => exists m',
            Delete id m = Some (None, m') /\ Mutex m' = false
            /\ made m' = true
            /\ Products m' !! id = None
            /\ (forall k, k <> id -> Products m' !! k = Products m !! k)
        | None => Delete id m = Some (Some ErrProductNotFound, m)
        end)
  /\ (forall id,
        Products m !! id = None
        <-> exists m', Delete id m = Some (Some ErrProductNotFound, m')).
Proof.
  intros Hfree. destruct m as [mu tb]. simpl in Hfree. subst mu.
  set (m := build false tb).
  assert (Hget : forall id h,
             match Products m !! id with
             | Some p => exists l,
                 GetByID id m h = Some ((Some l, None), m, <[l := p]> h)
                 /\ h !! l = None
             | None =>
                 GetByID id m h = Some ((None, Some ErrProductNotFound), m, h)
             end).
  { intros id h. unfold GetByID, Lock, Unlock, new_product, Products, m.
    simpl. destruct tb as [ps|]; simpl.
    - destruct (ps !! id) as [p|] eqn:Hid; [|done].
      exists (fresh (dom h)). split; [done|]. apply not_elem_of_dom, is_fresh.
    - by rewrite lookup_empty. }
  assert (Hdel : forall id,
             match Products m !! id with
             | Some _ => exists m',
                 Delete id m = Some (None, m') /\ Mutex m' = false
                 /\ made m' = true
                 /\ Products m' !! id = None
                 /\ (forall k, k <> id -> Products m' !! k = Products m !! k)
             | None => Delete id m = Some (Some ErrProductNotFound, m)
             end).
  { intros id. unfold Delete, Lock, Unlock, Products, made, m. simpl.
    destruct tb as [ps|]; simpl.
    - destruct (ps !! id) as [p|] eqn:Hid; [|done].
      eexists. split; [done|]. simpl. split; [done|]. split; [done|].
      split; [apply lookup_delete_eq|].
      intros k Hk. by apply lookup_delete_ne.
    - by rewrite lookup_empty. }
  split; [|split; [|split; [exact Hget|split; [|split; [exact Hdel|]]]]].
  - unfold made, Save, Lock, Unlock, Products, m. simpl.
    destruct tb as [ps|]; [|done]. intros _ p. simpl.
    eexists. split; [done|]. simpl. split; [done|]. split; [done|].
    split; [apply lookup_insert_eq|].
    intros k Hk. by apply lookup_insert_ne.
  - unfold made, Save, Lock, Unlock, m. simpl. by destruct tb as [ps|].
  - intros id h. specialize (Hget id h).
    destruct (Products m !! id) as [p|].
    + destruct Hget as (l & -> & _). split; [done|].
      by intros (r & m' & h' & [=]).
    + split; [|done]. intros _. by repeat eexists.
  - intros id. specialize (Hdel id).
    destruct (Products m !! id) as [p|].
    + destruct Hdel as (m' & -> & _). split; [done|]. by intros (m'' & [=]).
    + split; [|done]. intros _. by eexists.
Qed.

Lemma MemoryStorage_contract_witness :
  let p := mkProduct 1 "Test Product" f64_zero 0 "" in
  let q := mkProduct 2 "Other" f64_zero 0 "" in
  let m := MemoryStorage.mk false (<[1 := p]> ∅) in
  Mutex m = false
  /\ made m = true
  /\ (exists m', Save q m = Some (Returns None, m')
                 /\ Products m' !! 2 = Some q)
  /\ GetByID 1 m ∅ = Some ((Some 1%positive, None), m, {[1%positive := p]})
  /\ GetByID 2 m ∅ = Some ((None, Some ErrProductNotFound), m, ∅)
  /\ Delete 2 m = Some (Some ErrProductNotFound, m).
Proof.
  intros p q m.
  destruct (MemoryStorage_contract m eq_refl)
    as (Hsave & _ & Hget & _ & Hdel & _).
  split; [reflexivity|]. split; [reflexivity|]. split.
  - destruct (Hsave eq_refl q) as (m' & Hm' & _ & _ & Hq & _).
    exists m'. split; [exact Hm'|exact Hq].
  - split; [reflexivity|].
    split; [exact (Hget 2 ∅)|exact (Hdel 2)].
Defined.

(** C5 fails as stated: on the zero value [MemoryStorage{}], whose mutex
    is free, [Save] does not return success: the assignment to the nil map
    panics, and nothing is stored. *)
Lemma MemoryStorage_Save_panics_on_nil_map :
  let p := mkProduct 1 "Test Product" f64_zero 0 "" in
  Mutex MemoryStorage.zero = false
  /\ Save p MemoryStorage.zero = Some (Panics, MemoryStorage.zero)
  /\ (forall m', Save p MemoryStorage.zero <> Some (Returns None, m'))
  /\ Products MemoryStorage.zero !! ID p = None.
Proof.
  intros p.
  assert (Hsave : Save p MemoryStorage.zero
                  = Some (Panics, MemoryStorage.zero)) by reflexivity.
  split; [reflexivity|]. split; [exact Hsave|].
  split; [|apply lookup_empty].
  intros m'. rewrite Hsave. discriminate.
Qed.

End MemoryStorageFacts.

(** ** [MockDatabaseStorage] *)

Section MockDatabaseStorageFacts.

Import MockDatabaseStorage.

(** C4: on a storage whose mutex is free, when the failure draw triggers,
    [GetByID] returns [ErrFailedToGetProduct] and [Delete] returns
    [ErrFailedToDeleteProduct], whether the key is present or not; when it
    does not trigger, both go on to the lookup of the key, failing with
    [ErrProductNotFound] on an absent key and succeeding on a present one.
    The two transient errors differ from [ErrProductNotFound], and a call
    that returns an error leaves the store as it was. *)
Theorem MockDatabaseStorage_failure_first (mds : MockDatabaseStorage.t)
    (d : db_draws) :
  Mutex mds = false ->
  (failure_triggers (fail_draw d) = true ->
     forall id h,
       GetByID d id mds h = Some ((None, Some ErrFailedToGetProduct), mds, h)
       /\ Delete d id mds = Some (Some ErrFailedToDeleteProduct, mds))
  /\ (failure_triggers (fail_draw d) = false ->
        forall id h,
          match store mds !! id with
          | Some p =>
              (exists l, h !! l = None
                 /\ GetByID d id mds h
                    = Some ((Some l, None), mds, <[l := p]> h))
              /\ Delete d id mds = Some (None, mk false (delete id (store mds)))
          | None =>
              GetByID d id mds h
              = Some ((None, Some ErrProductNotFound), mds, h)
              /\ Delete d id mds = Some (Some ErrProductNotFound, mds)
          end)
  /\ ErrFailedToGetProduct <> ErrProductNotFound
  /\ ErrFailedToDeleteProduct <> ErrProductNotFound
  /\ (forall id h r e mds' h',
        GetByID d id mds h = Some ((r, Some e), mds', h') ->
        mds' = mds /\ h' = h /\ r = None)
  /\ (forall id e mds', Delete d id mds = Some (Some e, mds') -> mds' = mds).
Proof.
  intros Hfree. destruct mds as [mu tb]. simpl in Hfree. subst mu.
  unfold GetByID, Delete, Lock, Unlock, new_product, store, mk. simpl.
  assert (Hnil : forall id, (∅ : gmap Z Product) !! id = None)
    by (intros id; apply lookup_empty).
  split; [|split; [|split; [done|split; [done|split]]]].
  - intros ->. done.
  - intros -> id h. destruct tb as [st|]; [|by rewrite Hnil].
    destruct (st !! id) as [p|]; [|done].
    split; [|done]. exists (fresh (dom h)).
    split; [apply not_elem_of_dom, is_fresh|done].
  - intros id h r e mds' h'.
    destruct (failure_triggers (fail_draw d)); [by intros [= <- <- <- <-]|].
    destruct tb as [st|]; [|rewrite Hnil; by intros [= <- <- <- <-]].
    destruct (st !! id) as [p|]; [done|by intros [= <- <- <- <-]].
  - intros id e mds'.
    destruct (failure_triggers (fail_draw d)); [by intros [= <- <-]|].
    destruct tb as [st|]; [|rewrite Hnil; by intros [= <- <-]].
    destruct (st !! id) as [p|]; [done|by intros [= <- <-]].
Qed.

Lemma MockDatabaseStorage_failure_first_witness :
  let p := mkProduct 1 "Test Product" f64_zero 0 "" in
  let mds := MockDatabaseStorage.mk false (<[1 := p]> ∅) in
  let d := mk_db_draws 2 (S754_finite false 8388608 (-27)) in
  let d' := mk_db_draws 0 f32_tenth in
  Mutex mds = false
  /\ is_float32 (fail_draw d) /\ is_float32 (fail_draw d')
  /\ failure_triggers (fail_draw d) = true
  /\ GetByID d 1 mds ∅ = Some ((None, Some ErrFailedToGetProduct), mds, ∅)
  /\ Delete d 2 mds = Some (Some ErrFailedToDeleteProduct, mds)
  /\ failure_triggers (fail_draw d') = false
  /\ Delete d' 2 mds = Some (Some ErrProductNotFound, mds).
Proof.
  intros p mds d d'.
  destruct (MockDatabaseStorage_failure_first mds d eq_refl) as (Hfail & _).
  destruct (MockDatabaseStorage_failure_first mds d' eq_refl)
    as (_ & Hpass & _).
  split; [reflexivity|]. split; [reflexivity|]. split; [reflexivity|].
  split; [reflexivity|].
  split; [exact (proj1 (Hfail eq_refl 1 ∅))|].
  split; [exact (proj2 (Hfail eq_refl 2 ∅))|].
  split; [reflexivity|]. exact (proj2 (Hpass eq_refl 2 ∅)).
Defined.

End MockDatabaseStorageFacts.

(** ** Lookups return copies *)

Section CopyFacts.

Lemma FindProductByName_loop_spec (order : list (Z * Product))
    (name : string) :
  (exists k p, (k, p) ∈ order /\ Name p = name
     /\ forall h, Inventory.FindProductByName_loop order name h
                  = ((Some (fresh (dom h)), None), <[fresh (dom h) := p]> h))
  \/ ((forall k p, (k, p) ∈ order -> Name p <> name)
      /\ forall h, Inventory.FindProductByName_loop order name h
                   = ((None, Some ErrProductNotFound), h)).
Proof.
  induction order as [|[k p] rest IH]; simpl.
  - right. split; [|done]. intros k p Hin. by apply elem_of_nil in Hin.
  - destruct (String.eqb_spec (Name p) name) as [Heq|Hne].
    + left. exists k, p. split; [left|done].
    + destruct IH as [(k' & p' & Hin & Hname & Hres)|[Hnone Hres]].
      * left. exists k', p'. split; [by right|done].
      * right. split; [|done]. intros k' p' Hin.
        apply elem_of_cons in Hin as [[= -> ->]|Hin]; [done|by eapply Hnone].
Qed.

(** What calls through a fresh pointer to a copy of [p] leave behind: the
    copy changed, every other cell as it was, and a further fresh address
    different from the pointer. *)
Lemma copy_then_calls (cs : list mutation) (p : Product)
    (h : gmap loc Product) :
  let l := fresh (dom h) in
  h !! l = None
  /\ exists h',
       calls_through l cs (<[l := p]> h) = Some h'
       /\ h' !! l = Some (apply_mutations p cs)
       /\ (forall a, a <> l -> h' !! a = h !! a)
       /\ fresh (dom h') <> l.
Proof.
  intros l. split; [apply not_elem_of_dom, is_fresh|].
  destruct (calls_through_spec l cs p (<[l := p]> h))
    as (h' & Hrun & Hat & Hother); [apply lookup_insert_eq|].
  exists h'. split; [done|]. split; [done|]. split.
  - intros a Ha. rewrite Hother by done. by apply lookup_insert_ne.
  - intros Heq. pose proof (is_fresh (dom h')) as Hfresh.
    rewrite Heq in Hfresh. apply Hfresh, elem_of_dom. eauto.
Qed.

(** C10: [FindProductByName] and [MemoryStorage.GetByID] return the address
    of a new variable holding a copy of the stored product, an address not
    in use before; they leave the inventory and the store as they were;
    calls of [Sell], [Restock] and [UpdatePrice] through the returned
    pointer change the copy and no other cell, and the map, which holds
    products and not addresses, still holds the product as it was: the same
    lookup afterwards returns a pointer to a copy of it. *)
Theorem lookups_return_copies (cs : list mutation) (h : gmap loc Product) :
  (forall (i : Inventory.t) order name,
      range_of (Inventory.Products i) order ->
      (exists k p l,
          Inventory.Products i !! k = Some p /\ Name p = name
          /\ h !! l = None
          /\ Inventory.FindProductByName i order name h
             = ((Some l, None), <[l := p]> h)
          /\ exists h' l',
               calls_through l cs (<[l := p]> h) = Some h'
               /\ h' !! l = Some (apply_mutations p cs)
               /\ (forall a, a <> l -> h' !! a = h !! a)
               /\ Inventory.FindProductByName i order name h'
                  = ((Some l', None), <[l' := p]> h')
               /\ l' <> l)
      \/ ((forall k p, Inventory.Products i !! k = Some p -> Name p <> name)
          /\ Inventory.FindProductByName i order name h
             = ((None, Some ErrProductNotFound), h)))
  /\ (forall (m : MemoryStorage.t) id p,
        MemoryStorage.Mutex m = false ->
        MemoryStorage.Products m !! id = Some p ->
        exists l,
          h !! l = None
          /\ MemoryStorage.GetByID id m h
             = Some ((Some l, None), m, <[l := p]> h)
          /\ exists h' l',
               calls_through l cs (<[l := p]> h) = Some h'
               /\ h' !! l = Some (apply_mutations p cs)
               /\ (forall a, a <> l -> h' !! a = h !! a)
               /\ MemoryStorage.GetByID id m h'
                  = Some ((Some l', None), m, <[l' := p]> h')
               /\ l' <> l).
Proof.
  split.
  - intros i order name Hrange. unfold Inventory.FindProductByName.
    destruct (FindProductByName_loop_spec order name)
      as [(k & p & Hin & Hname & Hres)|[Hnone Hres]].
    + left. exists k, p, (fresh (dom h)).
      destruct (copy_then_calls cs p h)
        as (Hfresh & h' & Hrun & Hat & Hother & Hne).
      split; [by apply (range_of_lookup _ _ _ _ Hrange)|].
      split; [done|]. split; [done|]. split; [apply Hres|].
      exists h', (fresh (dom h')). by rewrite Hres.
    + right. split; [|apply Hres]. intros k p Hk.
      apply (Hnone k p). by apply (range_of_lookup _ _ _ _ Hrange).
  - intros [mu tb] id p Hfree Hid. simpl in Hfree. subst mu.
    destruct (copy_then_calls cs p h)
      as (Hfresh & h' & Hrun & Hat & Hother & Hne).
    assert (Hget : forall h0,
               MemoryStorage.GetByID id (MemoryStorage.build false tb) h0
               = Some ((Some (fresh (dom h0)), None),
                       MemoryStorage.build false tb,
                       <[fresh (dom h0) := p]> h0)).
    { intros h0. unfold MemoryStorage.Products in Hid. simpl in Hid.
      unfold MemoryStorage.GetByID, MemoryStorage.Lock,
        MemoryStorage.Unlock, MemoryStorage.Products, new_product. simpl.
      by rewrite Hid. }
    exists (fresh (dom h)). split; [done|]. split; [apply Hget|].
    exists h', (fresh (dom h')). by rewrite Hget.
Qed.

Lemma lookups_return_copies_witness :
  let p := mkProduct 1 "Test Product" f64_zero 10 "Test" in
  let i := Inventory.mk (<[1 := p]> ∅) in
  let cs := [CallSell 4; CallUpdatePrice (f64_of_int 20)] in
  range_of (Inventory.Products i) [(1, p)]
  /\ Inventory.FindProductByName i [(1, p)] "Test Product" ∅
     = ((Some 1%positive, None), {[1%positive := p]})
  /\ calls_through 1%positive cs {[1%positive := p]}
     = Some {[1%positive := mkProduct 1 "Test Product" (f64_of_int 20) 6 "Test"]}
  /\ Inventory.Products i !! 1 = Some p
  /\ exists k q l,
       Inventory.Products i !! k = Some q /\ Name q = "Test Product"
       /\ Inventory.FindProductByName i [(1, p)] "Test Product" ∅
          = ((Some l, None), <[l := q]> ∅).
Proof.
  intros p i cs.
  assert (Hrange : range_of (Inventory.Products i) [(1, p)]).
  { unfold range_of. vm_compute. solve_Permutation. }
  split; [exact Hrange|]. split; [reflexivity|]. split; [reflexivity|].
  split; [reflexivity|].
  destruct (lookups_return_copies cs ∅) as [Hfind _].
  destruct (Hfind i [(1, p)] "Test Product" Hrange)
    as [(k & q & l & Hk & Hname & _ & Hres & _)|[Hnone _]].
  - exists k, q, l. by repeat split.
  - exfalso. by apply (Hnone 1 p).
Defined.

End CopyFacts.

(** ** [FetchProductsConcurrently] *)

Section FetcherFacts.

Import Fetcher.

Variable api : ExternalAPI.

Lemma fetched_length (j : Z * api_draws) :
  (length (fetched api j) + length (failed api j) = 1)%nat.
Proof.
  unfold fetched, failed. by destruct (FetchProductDetails api j.2 j.1) as [? []].
Qed.

Lemma flat_map_fetched_length (js : list (Z * api_draws)) :
  (length (flat_map (fetched api) js) + length (flat_map (failed api) js)
   = length js)%nat.
Proof.
  induction js as [|j js IH]; simpl; [done|].
  rewrite !length_app. pose proof (fetched_length j). lia.
Qed.

(** A fetched pointer is not [nil] and points to a product with the ID of
    its job. *)
Lemma fetched_elem (j : Z * api_draws) (x : option Product) :
  x ∈ fetched api j ->
  exists p, x = Some p /\ ID p = j.1
    /\ FetchProductDetails api j.2 j.1 = (Some p, None).
Proof.
  unfold fetched.
  destruct (FetchProductDetails api j.2 j.1) as [r [e|]] eqn:Hcall;
    [by intros ?%elem_of_nil|].
  intros ->%list_elem_of_singleton. revert Hcall. unfold FetchProductDetails.
  destruct (failure_triggers (api_fail j.2)); [done|].
  intros [= <-]. eexists. by repeat split.
Qed.

Lemma jobs_lookup (ids : list Z) (draws : nat -> api_draws) (j : Z * api_draws) :
  j ∈ jobs ids draws ->
  exists k, ids !! k = Some j.1 /\ j.2 = draws k.
Proof.
  unfold jobs. intros (k & id & -> & Hk)%elem_of_lookup_imap_1.
  by exists k.
Qed.

Lemma jobs_length (ids : list Z) (draws : nat -> api_draws) :
  length (jobs ids draws) = length ids.
Proof. apply length_imap. Qed.

(** Replacing the state of one goroutine. *)
Lemma insert_split (gs : list goroutine) (k : nat) (g g' : goroutine) :
  gs !! k = Some g ->
  exists l1 l2, gs = l1 ++ g :: l2 /\ <[k := g']> gs = l1 ++ g' :: l2.
Proof.
  intros Hk. exists (take k gs), (drop (S k) gs). split.
  - by rewrite take_drop_middle.
  - apply insert_take_drop. by eapply lookup_lt_Some.
Qed.

Lemma active_count_app (l1 l2 : list goroutine) :
  active_count (l1 ++ l2) = (active_count l1 + active_count l2)%nat.
Proof. induction l1 as [|g l1 IH]; simpl; [done|]. rewrite IH. lia. Qed.

Lemma weight_app (l1 l2 : list goroutine) :
  sum_list_with goroutine_weight (l1 ++ l2)
  = (sum_list_with goroutine_weight l1 + sum_list_with goroutine_weight l2)%nat.
Proof. apply sum_list_with_app. Qed.

Lemma active_count_zero (gs : list goroutine) :
  active_count gs = O ->
  flat_map (pending_results api) gs = []
  /\ flat_map (pending_errors api) gs = []
  /\ sum_list_with goroutine_weight gs = O
  /\ Forall (fun g => g = GExit) gs.
Proof.
  induction gs as [|g gs IH]; simpl; [done|].
  destruct g; simpl; try lia. intros Hz.
  destruct (IH Hz) as (? & ? & ? & ?). repeat split; try done.
  by constructor.
Qed.

Lemma active_count_pos (gs : list goroutine) :
  active_count gs <> O -> exists k g, gs !! k = Some g /\ active g = true.
Proof.
  induction gs as [|g gs IH]; simpl; [done|].
  destruct (active g) eqn:Hg.
  - intros _. by exists O, g.
  - intros Hpos. destruct IH as (k & g' & Hk & Hg'); [lia|].
    by exists (S k), g'.
Qed.

Lemma init_invariant (ids : list Z) (draws : nat -> api_draws) :
  invariant api (jobs ids draws) (init ids draws).
Proof.
  split; simpl; try done.
  by rewrite jobs_length.
Qed.

Lemma main_step_invariant (js : list (Z * api_draws)) (s s' : sys) :
  invariant api js s -> main_step s = Some s' ->
  invariant api js s' /\ weight s = S (weight s').
Proof.
  intros [Hres Herr Hwg Hcap Hret]. unfold main_step, weight.
  destruct (main s) as [[|[id d] rest]| |ps] eqn:Hmain; simpl in *.
  - intros [= <-]. split; [|simpl; lia]. split; simpl; try done.
  - intros [= <-]. split.
    + split; simpl; try done.
      * rewrite flat_map_app. simpl. rewrite app_nil_r.
        by rewrite <- (app_assoc (flat_map _ (goroutines s))).
      * rewrite flat_map_app. simpl. rewrite app_nil_r.
        by rewrite <- (app_assoc (flat_map _ (goroutines s))).
      * rewrite active_count_app. simpl. lia.
    + simpl. rewrite weight_app. simpl. lia.
  - destruct (wg s) eqn:Hz; [|done]. intros [= <-]. split.
    + split; simpl; try done. by intros ? [= <-].
    + simpl. lia.
  - done.
Qed.

Lemma go_step_invariant (js : list (Z * api_draws)) (k : nat) (s s' : sys) :
  invariant api js s -> go_step api k s = Some s' ->
  invariant api js s' /\ weight s = S (weight s').
Proof.
  intros [Hres Herr Hwg Hcap Hret]. unfold go_step, weight.
  destruct (goroutines s !! k) as [g|] eqn:Hk; [|done].
  destruct g as [id d|[product [err|]]| |].
  - intros [= <-]. simpl.
    destruct (insert_split _ k _ (GSend (FetchProductDetails api d id)) Hk)
      as (l1 & l2 & Hgs & ->).
    rewrite Hgs in *. split.
    + split; simpl; try done.
      * revert Hres. rewrite !flat_map_app. simpl. unfold fetched. simpl.
        by destruct (FetchProductDetails api d id) as [? []].
      * revert Herr. rewrite !flat_map_app. simpl. unfold failed. simpl.
        by destruct (FetchProductDetails api d id) as [? []].
      * revert Hwg. by rewrite !active_count_app.
    + rewrite !weight_app. simpl. lia.
  - destruct (decide _) as [Hroom|]; [|done]. intros [= <-]. simpl.
    destruct (insert_split _ k _ GDeferred Hk) as (l1 & l2 & Hgs & ->).
    rewrite Hgs in *. split.
    + split; simpl; try done.
      * revert Hres. by rewrite !flat_map_app.
      * rewrite <- Herr. rewrite !flat_map_app. simpl. solve_Permutation.
      * revert Hwg. by rewrite !active_count_app.
    + rewrite !weight_app. simpl. lia.
  - destruct (decide _) as [Hroom|]; [|done]. intros [= <-]. simpl.
    destruct (insert_split _ k _ GDeferred Hk) as (l1 & l2 & Hgs & ->).
    rewrite Hgs in *. split.
    + split; simpl; try done.
      * rewrite <- Hres. rewrite !flat_map_app. simpl. solve_Permutation.
      * revert Herr. by rewrite !flat_map_app.
      * revert Hwg. by rewrite !active_count_app.
      * intros ps Hps. destruct (Hret ps Hps) as [_ Hz].
        rewrite Hz, active_count_app in Hwg. simpl in Hwg. lia.
    + rewrite !weight_app. simpl. lia.
  - destruct (wg s) as [|n] eqn:Hn; [done|]. intros [= <-]. simpl.
    destruct (insert_split _ k _ GExit Hk) as (l1 & l2 & Hgs & ->).
    rewrite Hgs in *. split.
    + split; simpl; try done.
      * revert Hres. by rewrite !flat_map_app.
      * revert Herr. by rewrite !flat_map_app.
      * revert Hwg. rewrite !active_count_app. simpl. lia.
      * intros ps Hps. destruct (Hret ps Hps) as [_ Hz]. lia.
    + rewrite !weight_app. simpl. lia.
  - done.
Qed.

Lemma step_at_invariant (js : list (Z * api_draws)) (a : actor) (s s' : sys) :
  invariant api js s -> step_at api a s = Some s' ->
  invariant api js s' /\ weight s = S (weight s').
Proof.
  destruct a as [|k]; simpl;
    [apply main_step_invariant|apply go_step_invariant].
Qed.

Lemma run_invariant (js : list (Z * api_draws)) (sched : list actor)
    (s s' : sys) :
  invariant api js s -> run api sched s = Some s' ->
  invariant api js s' /\ weight s = (length sched + weight s')%nat.
Proof.
  revert s. induction sched as [|a sched IH]; intros s Hinv; simpl.
  - by intros [= <-].
  - destruct (step_at api a s) as [s1|] eqn:Hstep; [|done]. simpl.
    destruct (step_at_invariant js a s s1 Hinv Hstep) as [Hinv1 Hw1].
    intros Hrun. destruct (IH s1 Hinv1 Hrun) as [Hinv' Hw']. split; [done|].
    lia.
Qed.

Lemma run_app (sched sched' : list actor) (s : sys) :
  run api (sched ++ sched') s = run api sched s ≫= run api sched'.
Proof.
  revert s. induction sched as [|a sched IH]; intros s; simpl; [done|].
  destruct (step_at api a s) as [s1|]; simpl; [apply IH|done].
Qed.

(** No state of the call is stuck before the [return]: a send finds room
    in its channel, [wg.Done()] finds a positive counter, and [wg.Wait()]
    is passed once every goroutine has finished. *)
Lemma progress (js : list (Z * api_draws)) (s : sys) :
  invariant api js s ->
  (exists products, main s = MReturn products)
  \/ exists a s', step_at api a s = Some s'.
Proof.
  intros [Hres Herr Hwg Hcap Hret].
  destruct (main s) as [[|[id d] rest]| |ps] eqn:Hmain.
  - right. exists Main. simpl. unfold main_step. rewrite Hmain. eauto.
  - right. exists Main. simpl. unfold main_step. rewrite Hmain. eauto.
  - right. destruct (wg s) as [|n] eqn:Hn.
    + exists Main. simpl. unfold main_step. rewrite Hmain, Hn. eauto.
    + destruct (active_count_pos (goroutines s)) as (k & g & Hk & Hg); [lia|].
      exists (Go k). simpl. unfold go_step. rewrite Hk.
      destruct (insert_split _ k g g Hk) as (l1 & l2 & Hgs & _).
      pose proof (flat_map_fetched_length js) as Hlen.
      apply Permutation_length in Hres, Herr.
      rewrite Hgs, !length_app, flat_map_app, length_app in Hres, Herr.
      destruct g as [id d|[product [err|]]| |]; simpl in *;
        [eauto| | |rewrite Hn; eauto|done].
      * destruct (decide _) as [|Hfull]; [eauto|]. exfalso. lia.
      * destruct (decide _) as [|Hfull]; [eauto|]. exfalso. lia.
  - left. eauto.
Qed.

(** What the call has done when it returns. *)
Lemma returned (js : list (Z * api_draws)) (s : sys)
    (products : list (option Product)) :
  invariant api js s -> main s = MReturn products ->
  products ≡ₚ flat_map (fetched api) js
  /\ errors s ≡ₚ flat_map (failed api) js
  /\ Forall (fun g => g = GExit) (goroutines s).
Proof.
  intros [Hres Herr Hwg Hcap Hret] Hmain.
  destruct (Hret products Hmain) as [-> Hz].
  destruct (active_count_zero (goroutines s)) as (Hr & He & _ & Hexit);
    [lia|].
  rewrite Hmain, Hr in Hres. rewrite Hmain, He in Herr. simpl in *.
  by rewrite !app_nil_r in *.
Qed.

(** Every state of the call has an execution to the [return]. *)
Lemma completion (js : list (Z * api_draws)) (s : sys) :
  invariant api js s ->
  exists sched s' products,
    run api sched s = Some s' /\ main s' = MReturn products.
Proof.
  remember (weight s) as w eqn:Hw. revert s Hw.
  induction w as [w IH] using lt_wf_ind. intros s Hw Hinv.
  destruct (progress js s Hinv) as [[ps Hps]|(a & s1 & Hstep)].
  - by exists [], s, ps.
  - destruct (step_at_invariant js a s s1 Hinv Hstep) as [Hinv1 Hw1].
    destruct (IH (weight s1)) with (s := s1)
      as (sched & s' & ps & Hrun & Hps); [lia|done|done|].
    exists (a :: sched), s', ps. simpl. by rewrite Hstep.
Qed.

Lemma weight_init (ids : list Z) (draws : nat -> api_draws) :
  weight (init ids draws) = (4 * length ids + 2)%nat.
Proof. unfold weight. simpl. rewrite jobs_length. lia. Qed.

Lemma successes_elem (ids : list Z) (draws : nat -> api_draws)
    (x : option Product) :
  x ∈ flat_map (fetched api) (jobs ids draws)
  <-> exists p k id,
        x = Some p /\ ID p = id /\ ids !! k = Some id
        /\ FetchProductDetails api (draws k) id = (Some p, None).
Proof.
  rewrite list_elem_of_In, in_flat_map. split.
  - intros (j & Hj%list_elem_of_In & Hx%list_elem_of_In).
    destruct (fetched_elem j x Hx) as (p & -> & Hid & Hcall).
    destruct (jobs_lookup ids draws j Hj) as (k & Hk & Hd).
    exists p, k, j.1. by rewrite <- Hd.
  - intros (p & k & id & -> & Hid & Hk & Hcall).
    exists (id, draws k). split; apply list_elem_of_In.
    + unfold jobs. by apply (elem_of_lookup_imap_2 (fun k id => (id, draws k))).
    + unfold fetched. simpl. rewrite Hcall. by left.
Qed.

(** C1: under every schedule, the call returns the pointers of the
    successful fetches, each once, in the order in which their goroutines
    sent them: at most [len(ids)] pointers, none of them [nil], each to a
    product whose ID is one of [ids]; the errors of the failed fetches are
    in the [errors] channel, which nobody reads, and the result carries no
    error. The call returns under every schedule: no execution is longer
    than [4 * len(ids) + 2] steps, none is stuck before the [return], and
    each extends to one that returns. *)
Theorem FetchProductsConcurrently_spec (ids : list Z)
    (draws : nat -> api_draws) :
  (forall sched products,
      FetchProductsConcurrently api ids draws sched = Some products ->
      products ≡ₚ flat_map (fetched api) (jobs ids draws)
      /\ (length products <= length ids)%nat
      /\ (length products + length (flat_map (failed api) (jobs ids draws))
          = length ids)%nat
      /\ (forall x, x ∈ products
            <-> exists p k id,
                  x = Some p /\ ID p = id /\ ids !! k = Some id
                  /\ FetchProductDetails api (draws k) id = (Some p, None))
      /\ (forall x, x ∈ products -> exists p, x = Some p /\ ID p ∈ ids))
  /\ (forall sched s products,
        run api sched (init ids draws) = Some s ->
        main s = MReturn products ->
        products = results s
        /\ errors s ≡ₚ flat_map (failed api) (jobs ids draws)
        /\ Forall (fun g => g = GExit) (goroutines s))
  /\ (forall sched s,
        run api sched (init ids draws) = Some s ->
        (length sched <= 4 * length ids + 2)%nat
        /\ ((exists products, main s = MReturn products)
            \/ exists a s', step_at api a s = Some s')
        /\ exists sched' products,
             FetchProductsConcurrently api ids draws (sched ++ sched')
             = Some products).
Proof.
  pose proof (init_invariant ids draws) as Hinit.
  split; [|split].
  - intros sched products. unfold FetchProductsConcurrently.
    destruct (run api sched (init ids draws)) as [s|] eqn:Hrun; [|done].
    simpl. destruct (main s) as [| |ps] eqn:Hmain; try done.
    intros [= ->].
    destruct (run_invariant _ _ _ _ Hinit Hrun) as [Hinv _].
    destruct (returned _ _ _ Hinv Hmain) as (Hperm & _ & _).
    pose proof (flat_map_fetched_length (jobs ids draws)) as Hlen.
    rewrite jobs_length in Hlen.
    pose proof (Permutation_length Hperm) as Hplen.
    assert (Helem : forall x, x ∈ products
              <-> exists p k id,
                    x = Some p /\ ID p = id /\ ids !! k = Some id
                    /\ FetchProductDetails api (draws k) id = (Some p, None)).
    { intros x. rewrite Hperm. apply successes_elem. }
    split; [done|]. split; [lia|]. split; [lia|]. split; [done|].
    intros x (p & k & id & -> & Hid & Hk & _)%Helem. exists p.
    split; [done|]. rewrite Hid. by eapply list_elem_of_lookup_2.
  - intros sched s products Hrun Hmain.
    destruct (run_invariant _ _ _ _ Hinit Hrun) as [Hinv _].
    destruct (returned _ _ _ Hinv Hmain) as (_ & Herr & Hexit).
    split; [|done]. by apply Hinv.
  - intros sched s Hrun.
    destruct (run_invariant _ _ _ _ Hinit Hrun) as [Hinv Hw].
    rewrite weight_init in Hw. split; [lia|].
    split; [by eapply progress|].
    destruct (completion _ _ Hinv) as (sched' & s' & ps & Hrun' & Hps).
    exists sched', ps. unfold FetchProductsConcurrently.
    rewrite run_app, Hrun. simpl. rewrite Hrun'. simpl. by rewrite Hps.
Qed.

End FetcherFacts.

Lemma FetchProductsConcurrently_spec_witness :
  let api := mkExternalAPI "http://localhost" in
  let ok := mk_api_draws 1 (S754_finite false 8388608 (-24)) 42 7 in
  let ko := mk_api_draws 2 (S754_zero false) 42 7 in
  let draws := fun k : nat => match k with 1%nat => ko | _ => ok end in
  let p5 := mkProduct 5 "Product 5" (f64_of_int 42) 7 "Category" in
  let p7 := mkProduct 7 "Product 7" (f64_of_int 42) 7 "Category" in
  let go := Fetcher.Go in
  let sched :=
    [Fetcher.Main; Fetcher.Main; go 1; Fetcher.Main; Fetcher.Main; go 2; go 2;
     go 0; go 1; go 0; go 2; go 1; go 0; Fetcher.Main]%nat in
  Fetcher.FetchProductsConcurrently api [5; 6; 7] draws sched
  = Some [Some p7; Some p5]
  /\ Fetcher.FetchProductsConcurrently api [5; 6; 7] draws
       (Fetcher.sequential_schedule 3)
     = Some [Some p5; Some p7]
  /\ [Some p7; Some p5]
     ≡ₚ flat_map (Fetcher.fetched api) (Fetcher.jobs [5; 6; 7] draws)
  /\ forall x, x ∈ [Some p7; Some p5] -> exists p, x = Some p /\ ID p ∈ [5; 6; 7].
Proof.
  intros api ok ko draws p5 p7 go sched.
  assert (Hrun : Fetcher.FetchProductsConcurrently api [5; 6; 7] draws sched
                 = Some [Some p7; Some p5]) by (vm_compute; reflexivity).
  destruct (FetchProductsConcurrently_spec api [5; 6; 7] draws) as [Hret _].
  destruct (Hret sched _ Hrun) as (Hperm & _ & _ & _ & Hids).
  split; [exact Hrun|]. split; [vm_compute; reflexivity|].
  split; [exact Hperm|exact Hids].
Defined.

(** ** The tests of the package, on the embedding *)

Section PackageTests.

Example TestProduct_UpdatePrice :
  Price (UpdatePrice (f64_of_int 20)
           (mkProduct 0 "" (f64_of_int 10) 0 ""))
  = f64_of_int 20.
Proof. reflexivity. Qed.

Example TestProduct_Sell :
  let p := mkProduct 0 "" f64_zero 10 "" in
  (Sell 5 p).1 = None /\ Quantity (Sell 5 p).2 = 5
  /\ (Sell 10 (Sell 5 p).2).1 = Some ErrInsufficientStock.
Proof. by vm_compute. Qed.

Example TestProduct_Restock :
  Quantity (Restock 5 (mkProduct 0 "" f64_zero 10 "")) = 15.
Proof. reflexivity. Qed.

Example TestInventory_AddProduct :
  let i := Inventory.mk ∅ in
  let p := mkProduct 1 "Test Product" f64_zero 0 "" in
  (Inventory.AddProduct p i).1 = Returns None
  /\ Inventory.Products (Inventory.AddProduct p i).2 !! 1 = Some p
  /\ (Inventory.AddProduct p (Inventory.AddProduct p i).2).1
     = Returns (Some ErrProductAlreadyExists).
Proof. by vm_compute. Qed.

Example TestInventory_RemoveProduct :
  let p := mkProduct 1 "Test Product" f64_zero 0 "" in
  let i := Inventory.mk (<[1 := p]> ∅) in
  (Inventory.RemoveProduct 1 i).1 = None
  /\ Inventory.Products (Inventory.RemoveProduct 1 i).2 !! 1 = None
  /\ (Inventory.RemoveProduct 1 (Inventory.RemoveProduct 1 i).2).1
     = Some ErrProductNotFound.
Proof. by vm_compute. Qed.

Example TestInventory_FindProductByName :
  let p := mkProduct 1 "Test Product" f64_zero 0 "" in
  let i := Inventory.mk (<[1 := p]> ∅) in
  Inventory.FindProductByName i [(1, p)] "Test Product" ∅
  = ((Some 1%positive, None), {[1%positive := p]})
  /\ Inventory.FindProductByName i [(1, p)] "Nonexistent Product" ∅
     = ((None, Some ErrProductNotFound), ∅).
Proof. by vm_compute. Qed.

Example TestInventory_TotalValue :
  let p1 := mkProduct 1 "" (f64_of_int 10) 2 "" in
  let p2 := mkProduct 2 "" (f64_of_int 20) 1 "" in
  let i := Inventory.mk (<[2 := p2]> (<[1 := p1]> ∅)) in
  Inventory.TotalValue i [(1, p1); (2, p2)] = f64_of_int 40
  /\ Inventory.TotalValue i [(2, p2); (1, p1)] = f64_of_int 40.
Proof. by vm_compute. Qed.

Example TestMemoryStorage_Save :
  let p := mkProduct 1 "Test Product" f64_zero 0 "" in
  MemoryStorage.Save p (MemoryStorage.mk false ∅)
  = Some (Returns None, MemoryStorage.mk false (<[1 := p]> ∅)).
Proof. reflexivity. Qed.

Example TestMemoryStorage_Delete :
  let p := mkProduct 1 "Test Product" f64_zero 0 "" in
  let m := MemoryStorage.mk false (<[1 := p]> ∅) in
  MemoryStorage.Delete 1 m = Some (None, MemoryStorage.mk false ∅)
  /\ MemoryStorage.Delete 1 (MemoryStorage.mk false ∅)
     = Some (Some ErrProductNotFound, MemoryStorage.mk false ∅).
Proof. by vm_compute. Qed.

End PackageTests.

(** * Further properties of the package *)

(** ** Stock movements and prices *)

Section StockFacts.

Lemma Sell_success (n : Z) (p : Product) :
  (Sell n p).1 = None <-> n <= Quantity p.
Proof.
  unfold Sell, GoInt.ltb. destruct (Z.ltb_spec (Quantity p) n); simpl.
  - split; [done|lia].
  - split; [lia|done].
Qed.

(** X1: a successful [Sell(n)] followed by [Restock(n)] gives the product
    back as it was, whatever the sign of [n]; and [Restock(n)] followed by
    [Sell(n)] succeeds and gives the product back when the stock and [n] are
    non-negative and their sum does not exceed [max_int]. *)
Theorem Sell_Restock_round_trip (p : Product) (n : Z) :
  is_int (Quantity p) ->
  ((Sell n p).1 = None -> Restock n (Sell n p).2 = p)
  /\ (0 <= Quantity p -> 0 <= n -> Quantity p + n <= max_int ->
        Sell n (Restock n p) = (None, p)).
Proof.
  intros Hq. destruct p as [id name price q cat]. simpl in Hq. split.
  - intros Hok%Sell_success. simpl in Hok. unfold Sell, GoInt.ltb. simpl.
    destruct (Z.ltb_spec q n); [lia|]. unfold Restock, GoInt.add, GoInt.sub.
    simpl. f_equal. rewrite wrap_add_l.
    replace (q - n + n) with q by lia. by apply wrap_in_range.
  - intros H0 Hn Hsum. simpl in H0, Hsum.
    unfold Restock, Sell, GoInt.ltb, GoInt.add, GoInt.sub.
    simpl. rewrite (wrap_in_range (q + n))
      by (unfold is_int, min_int, max_int, int_bits in *; lia).
    destruct (Z.ltb_spec (q + n) n); [lia|]. do 2 f_equal.
    replace (q + n - n) with q by lia. by apply wrap_in_range.
Qed.

Lemma Sell_Restock_round_trip_witness :
  let p := mkProduct 1 "Test Product" f64_zero 10 "Test" in
  is_int (Quantity p)
  /\ Restock 4 (Sell 4 p).2 = p /\ Sell 4 (Restock 4 p) = (None, p).
Proof.
  intros p.
  assert (Hq : is_int (Quantity p))
    by (unfold is_int, min_int, max_int, int_bits; simpl; lia).
  destruct (Sell_Restock_round_trip p 4 Hq) as [Hsr Hrs].
  split; [exact Hq|]. split; [apply Hsr; reflexivity|].
  apply Hrs; unfold max_int, int_bits; simpl; lia.
Defined.

(** X2: for non-negative [n] and [m] whose sum does not exceed [max_int],
    [Sell(n)] and then [Sell(m)] both succeed exactly when one [Sell] of
    the [int] sum of [n] and [m] does, and then leave the same product.
    The sum is the [int] the code can pass, [GoInt.add n m]; past
    [max_int] it wraps around, and the two sides part, as
    [Sell_twice_needs_the_bound] shows. *)
Theorem Sell_twice (p : Product) (n m : Z) :
  is_int (Quantity p) -> 0 <= n -> 0 <= m -> n + m <= max_int ->
  ((Sell n p).1 = None /\ (Sell m (Sell n p).2).1 = None
   <-> (Sell (GoInt.add n m) p).1 = None)
  /\ ((Sell (GoInt.add n m) p).1 = None ->
      Sell m (Sell n p).2 = Sell (GoInt.add n m) p).
Proof.
  intros Hq Hn Hm Hsum. destruct p as [id name price q cat]. simpl in Hq.
  assert (Hadd : GoInt.add n m = n + m).
  { unfold GoInt.add. apply wrap_in_range.
    unfold is_int, min_int, max_int, int_bits in *. lia. }
  rewrite Hadd.
  assert (Hsub : n <= q -> wrap (q - n) = q - n).
  { intros Hle. apply wrap_in_range.
    unfold is_int, min_int, max_int, int_bits in *. lia. }
  split.
  - rewrite !Sell_success. simpl. split.
    + intros [Hle Hle']. revert Hle'. unfold Sell, GoInt.ltb, GoInt.sub. simpl.
      destruct (Z.ltb_spec q n); [lia|]. simpl. rewrite Hsub by done. lia.
    + intros Hle. split; [lia|]. unfold Sell, GoInt.ltb, GoInt.sub. simpl.
      destruct (Z.ltb_spec q n); [lia|]. simpl. rewrite Hsub by lia. lia.
  - intros Hle%Sell_success. simpl in Hle.
    unfold Sell, GoInt.ltb, GoInt.sub. simpl.
    destruct (Z.ltb_spec q n); [lia|]. simpl. rewrite Hsub by lia.
    destruct (Z.ltb_spec (q - n) m); [lia|].
    destruct (Z.ltb_spec q (n + m)); [lia|]. do 3 f_equal. lia.
Qed.

Lemma Sell_twice_witness :
  let p := mkProduct 1 "Test Product" f64_zero 10 "Test" in
  is_int (Quantity p) /\ 4 + 3 <= max_int
  /\ Sell 3 (Sell 4 p).2 = Sell (GoInt.add 4 3) p
  /\ Quantity (Sell (GoInt.add 4 3) p).2 = 3.
Proof.
  intros p.
  assert (Hq : is_int (Quantity p))
    by (unfold is_int, min_int, max_int, int_bits; simpl; lia).
  assert (Hsum : 4 + 3 <= max_int)
    by (unfold max_int, int_bits; simpl; lia).
  destruct (Sell_twice p 4 3 Hq) as [_ Heq]; [lia|lia|exact Hsum|].
  split; [exact Hq|]. split; [exact Hsum|].
  split; [apply Heq; reflexivity|reflexivity].
Defined.

(** Past [max_int] the sum wraps around: [Sell(max_int)] is refused at a
    stock of 10, and one [Sell] of the [int] sum of [max_int] and 1, which
    is [min_int], succeeds. *)
Example Sell_twice_needs_the_bound :
  let p := mkProduct 1 "Test Product" f64_zero 10 "Test" in
  GoInt.add max_int 1 = min_int
  /\ (Sell max_int p).1 = Some ErrInsufficientStock
  /\ (Sell (GoInt.add max_int 1) p).1 = None.
Proof. by vm_compute. Qed.

Lemma apply_mutation_fields (p : Product) (c : mutation) :
  ID (apply_mutation p c) = ID p /\ Name (apply_mutation p c) = Name p
  /\ Category (apply_mutation p c) = Category p
  /\ Price (apply_mutation p c)
     = match c with
       | CallUpdatePrice y => y
       | CallSell _ | CallRestock _ => Price p
       end.
Proof.
  destruct c as [n|n|x]; simpl; try done.
  unfold Sell. by destruct (GoInt.ltb (Quantity p) n).
Qed.

Lemma apply_mutation_stock (p q : Product) (c : mutation) :
  Quantity p = Quantity q ->
  Quantity (apply_mutation p c) = Quantity (apply_mutation q c).
Proof.
  intros Heq. destruct c as [n|n|x]; simpl; [|by rewrite Heq|done].
  unfold Sell. rewrite Heq. by destruct (GoInt.ltb (Quantity q) n).
Qed.

(** X3: prices and stock do not meet. Along every sequence of [Sell],
    [Restock] and [UpdatePrice] calls, ID, name and category stay as they
    were; the price left is the argument of the last [UpdatePrice], any
    [float64] being stored unchecked, or the first price when there is
    none; and the quantity left is the one the [Sell] and [Restock] calls
    leave without the [UpdatePrice] calls between them. *)
Theorem prices_and_stock_apart (p : Product) (cs : list mutation) :
  ID (apply_mutations p cs) = ID p
  /\ Name (apply_mutations p cs) = Name p
  /\ Category (apply_mutations p cs) = Category p
  /\ Price (apply_mutations p cs) = last_price p cs
  /\ Quantity (apply_mutations p cs)
     = Quantity (apply_mutations p
                   (filter (fun c => moves_stock c = true) cs)).
Proof.
  assert (Hfields : forall cs p,
            ID (apply_mutations p cs) = ID p
            /\ Name (apply_mutations p cs) = Name p
            /\ Category (apply_mutations p cs) = Category p
            /\ Price (apply_mutations p cs) = last_price p cs).
  { clear. induction cs as [|c cs IH]; intros p; [done|].
    rewrite apply_mutations_cons.
    destruct (IH (apply_mutation p c)) as (-> & -> & -> & ->).
    destruct (apply_mutation_fields p c) as (-> & -> & -> & Hprice).
    repeat split. unfold last_price. simpl. by rewrite Hprice. }
  assert (Hstock : forall cs p q,
            Quantity p = Quantity q ->
            Quantity (apply_mutations p cs)
            = Quantity (apply_mutations q
                          (filter (fun c => moves_stock c = true) cs))).
  { clear. induction cs as [|c cs IH]; intros p q Heq; [done|].
    rewrite apply_mutations_cons. destruct (moves_stock c) eqn:Hc.
    - rewrite filter_cons_True by done. rewrite apply_mutations_cons.
      apply IH. by apply apply_mutation_stock.
    - rewrite filter_cons_False by (simpl; congruence). apply IH.
      destruct c; simpl in *; try done. }
  destruct (Hfields cs p) as (? & ? & ? & ?). repeat split; try done.
  by apply Hstock.
Qed.

End StockFacts.

(** ** Updates and lookups of the inventory *)

Section InventoryCallFacts.

Import Inventory.

(** X4: [RemoveProduct(id)] on an absent [id] returns [ErrProductNotFound]
    and leaves the inventory as it was; on a present [id] it succeeds,
    removes that entry and no other, and the map has one entry fewer; a
    second [RemoveProduct(id)] fails. *)
Theorem RemoveProduct_spec (i : Inventory.t) (id : Z) :
  (Products i !! id = None ->
     RemoveProduct id i = (Some ErrProductNotFound, i))
  /\ (is_Some (Products i !! id) ->
        (RemoveProduct id i).1 = None
        /\ Products (RemoveProduct id i).2 !! id = None
        /\ (forall k, k <> id ->
              Products (RemoveProduct id i).2 !! k = Products i !! k)
        /\ S (size (Products (RemoveProduct id i).2)) = size (Products i))
  /\ (RemoveProduct id (RemoveProduct id i).2).1 = Some ErrProductNotFound.
Proof.
  unfold RemoveProduct. split; [|split].
  - by intros ->.
  - intros [p Hp]. rewrite Hp. simpl. split; [done|].
    rewrite Products_mk.
    split; [apply lookup_delete_eq|]. split.
    + intros k Hk. by apply lookup_delete_ne.
    + rewrite map_size_delete_Some by eauto.
      assert (size (Products i) <> O); [|lia].
      intros Hz%map_size_empty_inv. by rewrite Hz, lookup_empty in Hp.
  - destruct (Products i !! id) as [p|] eqn:Hp; simpl.
    + by rewrite Products_mk, lookup_delete_eq.
    + by rewrite Hp.
Qed.

(** X5: on an inventory whose map has been made, adding a product under
    an absent ID succeeds, and removing that ID then gives the inventory
    back; removing a stored product and adding it again gives the inventory
    back. An inventory that stores a product has a map that has been
    made. *)
Theorem AddProduct_RemoveProduct_round_trip (i : Inventory.t) (p : Product) :
  (made i = true -> Products i !! ID p = None ->
     (AddProduct p i).1 = Returns None
     /\ RemoveProduct (ID p) (AddProduct p i).2 = (None, i))
  /\ (Products i !! ID p = Some p ->
        made i = true
        /\ (RemoveProduct (ID p) i).1 = None
        /\ AddProduct p (RemoveProduct (ID p) i).2 = (Returns None, i)).
Proof.
  destruct i as [[m|]]; unfold RemoveProduct, AddProduct, made, Products;
    simpl; (split; [|intros Hsome]).
  - intros _ Hnone. rewrite Hnone. simpl. split; [done|].
    rewrite lookup_insert_eq. by rewrite delete_insert_id.
  - rewrite Hsome. simpl. rewrite lookup_delete_eq.
    by rewrite insert_delete_id.
  - done.
  - by rewrite lookup_empty in Hsome.
Qed.

Lemma AddProduct_RemoveProduct_round_trip_witness :
  let p := mkProduct 1 "Test Product" f64_zero 0 "" in
  let q := mkProduct 2 "Other" f64_zero 0 "" in
  let i := Inventory.mk (<[1 := p]> ∅) in
  RemoveProduct (ID q) (AddProduct q i).2 = (None, i)
  /\ AddProduct p (RemoveProduct (ID p) i).2 = (Returns None, i).
Proof.
  intros p q i.
  destruct (AddProduct_RemoveProduct_round_trip i q) as [Hadd _].
  destruct (AddProduct_RemoveProduct_round_trip i p) as [_ Hremove].
  split.
  - apply Hadd; reflexivity.
  - apply Hremove. reflexivity.
Defined.

Lemma apply_inventory_call_keyed (i : Inventory.t) (c : inventory_call) :
  keyed_by_ID (Products i) -> keyed_by_ID (Products (apply_inventory_call i c)).
Proof.
  intros Hkeyed. destruct c as [p|id]; simpl.
  - unfold AddProduct. destruct (Products i !! ID p) eqn:Hp; simpl; [done|].
    destruct i as [[m|]]; simpl; [|done]. rewrite Products_mk in *.
    intros k q. destruct (decide (k = ID p)) as [->|Hne].
    + rewrite lookup_insert_eq. by intros [= <-].
    + rewrite lookup_insert_ne by done. apply Hkeyed.
  - unfold RemoveProduct. destruct (Products i !! id) eqn:Hp; simpl; [|done].
    rewrite Products_mk.
    intros k q. destruct (decide (k = id)) as [->|Hne].
    + by rewrite lookup_delete_eq.
    + rewrite lookup_delete_ne by done. apply Hkeyed.
Qed.

Lemma keyed_by_ID_listing (i : Inventory.t) (order : list (Z * Product))
    (c : string) :
  keyed_by_ID (Products i) -> range_of (Products i) order ->
  NoDup (ID <$> ListByCategory i order c).
Proof.
  intros Hkeyed Hrange. unfold ListByCategory.
  rewrite ListByCategory_loop_filter, app_nil_l.
  set (matching := filter (fun kp : Z * Product => Category kp.2 = c) order).
  replace (ID <$> matching.*2) with matching.*1.
  { apply NoDup_keys_filter. by eapply range_of_NoDup_keys. }
  rewrite <- list_fmap_compose. apply list_fmap_ext.
  intros n [k p] Hn. simpl. symmetry. apply Hkeyed.
  apply (range_of_lookup _ order); [done|].
  assert (Hin : (k, p) ∈ matching) by (apply list_elem_of_lookup; eauto).
  by apply list_elem_of_filter in Hin as [_ Hin].
Qed.

(** X6: in an inventory built from one whose products are stored under
    their own IDs, the empty one for instance, by any sequence of
    [AddProduct] and [RemoveProduct] calls, every product is stored under
    its own ID; so [ListByCategory] lists no ID twice, and no product
    twice. *)
Theorem built_inventory_keyed_by_ID (i : Inventory.t)
    (cs : list inventory_call) :
  keyed_by_ID (Products i) ->
  keyed_by_ID (Products (apply_inventory_calls i cs))
  /\ (forall order c,
        range_of (Products (apply_inventory_calls i cs)) order ->
        NoDup (ID <$> ListByCategory (apply_inventory_calls i cs) order c)
        /\ NoDup (ListByCategory (apply_inventory_calls i cs) order c)).
Proof.
  intros Hkeyed.
  assert (Hbuilt : keyed_by_ID (Products (apply_inventory_calls i cs))).
  { revert i Hkeyed. induction cs as [|c cs IH]; intros i Hkeyed; [done|].
    apply IH. by apply apply_inventory_call_keyed. }
  split; [done|]. intros order c Hrange.
  pose proof (keyed_by_ID_listing _ order c Hbuilt Hrange) as Hnodup.
  split; [done|]. by apply (NoDup_fmap_1 ID).
Qed.

Lemma built_inventory_keyed_by_ID_witness :
  let p1 := mkProduct 1 "Product 1" f64_zero 0 "Category 1" in
  let p2 := mkProduct 2 "Product 2" f64_zero 0 "Category 1" in
  let p1' := mkProduct 1 "Other" f64_zero 5 "Category 1" in
  let cs := [CallAddProduct p1; CallAddProduct p2; CallAddProduct p1';
             CallRemoveProduct 3] in
  let i := apply_inventory_calls (Inventory.mk ∅) cs in
  Products i = <[2 := p2]> (<[1 := p1]> ∅)
  /\ keyed_by_ID (Products i)
  /\ NoDup (ListByCategory i [(1, p1); (2, p2)] "Category 1").
Proof.
  intros p1 p2 p1' cs i.
  assert (Hempty : keyed_by_ID (Products (Inventory.mk ∅)))
    by (intros k p; rewrite Products_mk; by rewrite lookup_empty).
  destruct (built_inventory_keyed_by_ID (Inventory.mk ∅) cs Hempty)
    as [Hkeyed Hlist].
  split; [reflexivity|]. split; [exact Hkeyed|].
  apply (Hlist [(1, p1); (2, p2)] "Category 1").
  unfold range_of. vm_compute. solve_Permutation.
Defined.

(** X7: when one stored product at most has the name looked for,
    [FindProductByName] returns a pointer to a copy of that product under
    every visiting order of the map. *)
Theorem FindProductByName_unique_name (i : Inventory.t)
    (order : list (Z * Product)) (h : gmap loc Product) (k : Z) (p : Product) :
  range_of (Products i) order ->
  Products i !! k = Some p ->
  (forall k' p', Products i !! k' = Some p' -> Name p' = Name p -> k' = k) ->
  FindProductByName i order (Name p) h
  = ((Some (fresh (dom h)), None), <[fresh (dom h) := p]> h).
Proof.
  intros Hrange Hk Hunique. unfold FindProductByName.
  destruct (FindProductByName_loop_spec order (Name p))
    as [(k' & p' & Hin & Hname & Hres)|[Hnone _]].
  - rewrite Hres. apply (range_of_lookup _ _ _ _ Hrange) in Hin.
    pose proof (Hunique k' p' Hin Hname) as ->.
    rewrite Hk in Hin. by injection Hin as <-.
  - exfalso. apply (Hnone k p); [|done].
    by apply (range_of_lookup _ _ _ _ Hrange).
Qed.

Lemma FindProductByName_unique_name_witness :
  let p1 := mkProduct 1 "Product 1" f64_zero 0 "" in
  let p2 := mkProduct 2 "Product 2" f64_zero 0 "" in
  let i := Inventory.mk (<[2 := p2]> (<[1 := p1]> ∅)) in
  FindProductByName i [(2, p2); (1, p1)] "Product 1" ∅
  = ((Some 1%positive, None), {[1%positive := p1]}).
Proof.
  intros p1 p2 i. change "Product 1" with (Name p1).
  etrans;
    [apply (FindProductByName_unique_name i [(2, p2); (1, p1)] ∅ 1 p1)
    |reflexivity].
  - unfold range_of. vm_compute. solve_Permutation.
  - reflexivity.
  - intros k' p'. unfold i. rewrite Products_mk.
    destruct (decide (k' = 2)) as [->|?];
      [rewrite lookup_insert_eq; by intros [= <-]|
       rewrite lookup_insert_ne by done].
    destruct (decide (k' = 1)) as [->|?]; [done|].
    rewrite lookup_insert_ne by done. by rewrite lookup_empty.
Defined.

(** X8: every stored product can be the one [FindProductByName] finds
    under its name: some visiting order of the map makes the call return a
    pointer to a copy of it. With two products of one name the product
    found depends on the visiting order. *)
Theorem FindProductByName_any_match (i : Inventory.t) (h : gmap loc Product)
    (k : Z) (p : Product) :
  Products i !! k = Some p ->
  exists order,
    range_of (Products i) order
    /\ FindProductByName i order (Name p) h
       = ((Some (fresh (dom h)), None), <[fresh (dom h) := p]> h).
Proof.
  intros Hk. exists ((k, p) :: map_to_list (delete k (Products i))). split.
  - unfold range_of. by apply map_to_list_delete.
  - unfold FindProductByName. simpl. by rewrite String.eqb_refl.
Qed.

Lemma FindProductByName_any_match_witness :
  let p1 := mkProduct 1 "Gadget" f64_zero 0 "" in
  let p2 := mkProduct 2 "Gadget" f64_zero 7 "" in
  let i := Inventory.mk (<[2 := p2]> (<[1 := p1]> ∅)) in
  (exists order,
      range_of (Products i) order
      /\ FindProductByName i order "Gadget" ∅
         = ((Some 1%positive, None), {[1%positive := p1]}))
  /\ (exists order,
        range_of (Products i) order
        /\ FindProductByName i order "Gadget" ∅
           = ((Some 1%positive, None), {[1%positive := p2]})).
Proof.
  intros p1 p2 i. split.
  - destruct (FindProductByName_any_match i ∅ 1 p1 eq_refl)
      as (order & Hrange & Hfind).
    exists order. split; [exact Hrange|]. etrans; [exact Hfind|reflexivity].
  - destruct (FindProductByName_any_match i ∅ 2 p2 eq_refl)
      as (order & Hrange & Hfind).
    exists order. split; [exact Hrange|]. etrans; [exact Hfind|reflexivity].
Defined.

Lemma ListByCategory_filter (i : Inventory.t) (order : list (Z * Product))
    (c : string) :
  range_of (Products i) order ->
  ListByCategory i order c
  ≡ₚ (filter (fun kp : Z * Product => Category kp.2 = c)
        (map_to_list (Products i))).*2.
Proof.
  intros Hrange. unfold ListByCategory.
  rewrite ListByCategory_loop_filter, app_nil_l. by rewrite Hrange.
Qed.

(** X9: listings follow the updates. After a successful [AddProduct(p)],
    [ListByCategory(c)] lists what it listed before and, when [p] has
    category [c], [p] as well; after a successful [RemoveProduct(id)] of a
    product [q] it lists what it listed before without [q]. *)
Theorem ListByCategory_after_update (i : Inventory.t)
    (order order' : list (Z * Product)) (c : string) :
  range_of (Products i) order ->
  (forall p,
      (AddProduct p i).1 = Returns None ->
      range_of (Products (AddProduct p i).2) order' ->
      ListByCategory (AddProduct p i).2 order' c
      ≡ₚ (if decide (Category p = c) then [p] else [])
         ++ ListByCategory i order c)
  /\ (forall id q,
        Products i !! id = Some q ->
        range_of (Products (RemoveProduct id i).2) order' ->
        (if decide (Category q = c) then [q] else [])
        ++ ListByCategory (RemoveProduct id i).2 order' c
        ≡ₚ ListByCategory i order c).
Proof.
  intros Hrange. split.
  - intros p Hadd Hrange'.
    rewrite (ListByCategory_filter _ order' c Hrange').
    rewrite (ListByCategory_filter _ order c Hrange).
    revert Hadd. unfold AddProduct.
    destruct (Products i !! ID p) eqn:Hnone; [done|].
    destruct i as [[m|]]; [intros _|done]. simpl.
    rewrite !Products_mk in *.
    rewrite map_to_list_insert by done.
    destruct (decide (Category p = c)) as [Hc|Hc].
    + by rewrite filter_cons_True.
    + by rewrite filter_cons_False.
  - intros id q Hsome Hrange'.
    rewrite (ListByCategory_filter _ order' c Hrange').
    rewrite (ListByCategory_filter _ order c Hrange).
    revert Hrange'. unfold RemoveProduct. rewrite Hsome. simpl. intros _.
    rewrite Products_mk.
    rewrite <- (map_to_list_delete (Products i) id q Hsome).
    destruct (decide (Category q = c)) as [Hc|Hc].
    + by rewrite filter_cons_True.
    + by rewrite filter_cons_False.
Qed.

Lemma ListByCategory_after_update_witness :
  let p1 := mkProduct 1 "Product 1" f64_zero 0 "Category 1" in
  let p2 := mkProduct 2 "Product 2" f64_zero 0 "Category 1" in
  let i := Inventory.mk (<[1 := p1]> ∅) in
  range_of (Products i) [(1, p1)]
  /\ ListByCategory (AddProduct p2 i).2 [(2, p2); (1, p1)] "Category 1"
     ≡ₚ [p2] ++ ListByCategory i [(1, p1)] "Category 1".
Proof.
  intros p1 p2 i.
  assert (Hrange : range_of (Products i) [(1, p1)])
    by (unfold range_of; vm_compute; solve_Permutation).
  destruct (ListByCategory_after_update i [(1, p1)] [(2, p2); (1, p1)]
              "Category 1" Hrange) as [Hadd _].
  split; [exact Hrange|]. apply (Hadd p2); [reflexivity|].
  unfold range_of. vm_compute. solve_Permutation.
Defined.

End InventoryCallFacts.

(** ** The two storages *)

Section StorageCallFacts.

(** X10: on a memory storage whose mutex is free and whose map has been
    made, [Save(p)] followed by [GetByID(p.ID)] returns a pointer to a copy
    of [p]; saving [p] again changes nothing; a later [Save] under the same
    ID replaces the earlier one; [Save(p)] followed by [Delete(p.ID)]
    leaves the store without the entry, after which [Delete] and [GetByID]
    of that ID fail with [ErrProductNotFound]. A new storage has a map that
    has been made and holds nothing. *)
Theorem MemoryStorage_round_trips (m : MemoryStorage.t) (p : Product)
    (h : gmap loc Product) :
  MemoryStorage.Mutex m = false ->
  MemoryStorage.made m = true ->
  (exists m1,
      MemoryStorage.Save p m = Some (Returns None, m1)
      /\ MemoryStorage.made m1 = true
      /\ (exists l, h !! l = None
            /\ MemoryStorage.GetByID (ID p) m1 h
               = Some ((Some l, None), m1, <[l := p]> h))
      /\ MemoryStorage.Save p m1 = Some (Returns None, m1)
      /\ (forall q, ID q = ID p ->
            MemoryStorage.Save q m1 = MemoryStorage.Save q m)
      /\ exists m2,
           MemoryStorage.Delete (ID p) m1 = Some (None, m2)
           /\ MemoryStorage.made m2 = true
           /\ MemoryStorage.Products m2
              = delete (ID p) (MemoryStorage.Products m)
           /\ (MemoryStorage.Products m !! ID p = None -> m2 = m)
           /\ MemoryStorage.Delete (ID p) m2
              = Some (Some ErrProductNotFound, m2)
           /\ MemoryStorage.GetByID (ID p) m2 h
              = Some ((None, Some ErrProductNotFound), m2, h))
  /\ MemoryStorage.made MemoryStorage.NewMemoryStorage = true
  /\ (forall id,
        MemoryStorage.GetByID id MemoryStorage.NewMemoryStorage h
        = Some ((None, Some ErrProductNotFound),
                MemoryStorage.NewMemoryStorage, h)
        /\ MemoryStorage.Delete id MemoryStorage.NewMemoryStorage
           = Some (Some ErrProductNotFound, MemoryStorage.NewMemoryStorage)).
Proof.
  intros Hfree Hmade. destruct m as [mu [ps|]]; [|done].
  simpl in Hfree. subst mu.
  unfold MemoryStorage.Save, MemoryStorage.GetByID, MemoryStorage.Delete,
    MemoryStorage.Lock, MemoryStorage.Unlock, MemoryStorage.NewMemoryStorage,
    MemoryStorage.Products, MemoryStorage.made, MemoryStorage.mk,
    new_product. simpl.
  split; [|split; [done|]].
  - eexists. split; [done|]. simpl. rewrite !lookup_insert_eq. simpl.
    split; [done|]. split; [|split; [|split]].
    + exists (fresh (dom h)). split; [apply not_elem_of_dom, is_fresh|done].
    + by rewrite insert_insert_eq.
    + intros q ->. by rewrite insert_insert_eq.
    + eexists. split; [done|]. simpl. rewrite lookup_delete_eq.
      rewrite delete_insert_eq. split; [done|]. split; [done|].
      split; [|done]. intros Hnone. by rewrite delete_id.
  - intros id. by rewrite lookup_empty.
Qed.

Lemma MemoryStorage_round_trips_witness :
  let p := mkProduct 1 "Test Product" f64_zero 0 "" in
  let m := MemoryStorage.NewMemoryStorage in
  MemoryStorage.Mutex m = false
  /\ MemoryStorage.made m = true
  /\ exists m1,
       MemoryStorage.Save p m = Some (Returns None, m1)
       /\ MemoryStorage.Save p m1 = Some (Returns None, m1).
Proof.
  intros p m.
  destruct (MemoryStorage_round_trips m p ∅ eq_refl eq_refl)
    as [(m1 & Hsave & _ & _ & Hagain & _) _].
  split; [reflexivity|]. split; [reflexivity|].
  exists m1. split; [exact Hsave|exact Hagain].
Defined.

Lemma mock_call_cases (mds : MockDatabaseStorage.t) (d : db_draws)
    (c : storage_call) (h : gmap loc Product) :
  MockDatabaseStorage.Mutex mds = false ->
  (failure_triggers (fail_draw d) = true ->
     mock_call d c mds h
     = Some (Returns (None, Some (transient_error c)), mds, h))
  /\ (failure_triggers (fail_draw d) = false ->
        exists o mds' h',
          mock_call d c mds h = Some (o, mds', h')
          /\ memory_call c (as_memory mds) h = Some (o, as_memory mds', h')
          /\ MockDatabaseStorage.Mutex mds' = false
          /\ MockDatabaseStorage.made mds' = MockDatabaseStorage.made mds
          /\ (o = Panics
              <-> MockDatabaseStorage.made mds = false
                  /\ exists p, c = CallSave p)).
Proof.
  intros Hfree. destruct mds as [mu tb]. simpl in Hfree. subst mu.
  unfold mock_call, memory_call, as_memory.
  unfold MockDatabaseStorage.Save, MockDatabaseStorage.GetByID,
    MockDatabaseStorage.Delete, MockDatabaseStorage.Lock,
    MockDatabaseStorage.Unlock, MockDatabaseStorage.store,
    MockDatabaseStorage.made, MockDatabaseStorage.mk,
    MemoryStorage.Save, MemoryStorage.GetByID,
    MemoryStorage.Delete, MemoryStorage.Lock, MemoryStorage.Unlock,
    MemoryStorage.Products, MemoryStorage.mk, new_product.
  simpl. split.
  - intros ->. by destruct c.
  - intros ->.
    assert (Hnil : forall id, (∅ : gmap Z Product) !! id = None)
      by (intros id; apply lookup_empty).
    destruct c as [p|id|id], tb as [st|]; simpl; rewrite ?Hnil;
      try destruct (st !! id); simpl;
      (eexists _, _, _; split; [done|]; split; [done|]; split; [done|];
       split; [done|]; split;
       [first [done|intros _; split; [done|by eexists]]
       |first [done|by intros [Hm [q Hq]]]]).
Qed.

(** X11: a call on a mock database whose mutex is free either meets a
    triggering failure draw, and then returns the transient error of its
    method, a [nil] pointer, and leaves store and heap as they were; or it
    ends as the same call ends on the memory storage holding the same map,
    returning the same values or panicking as it does, and leaves the same
    map behind. It panics in one case only: a [Save] that passes the
    failure draw on the nil map of the zero value; a map that has been made
    stays so, and a nil map stays nil. [Save] is one of the three methods
    this holds of. *)
Theorem mock_call_is_memory_call (mds : MockDatabaseStorage.t) (d : db_draws)
    (c : storage_call) (h : gmap loc Product) :
  MockDatabaseStorage.Mutex mds = false ->
  (failure_triggers (fail_draw d) = true ->
     mock_call d c mds h
     = Some (Returns (None, Some (transient_error c)), mds, h))
  /\ (failure_triggers (fail_draw d) = false ->
        exists o mds' h',
          mock_call d c mds h = Some (o, mds', h')
          /\ memory_call c (as_memory mds) h = Some (o, as_memory mds', h')
          /\ MockDatabaseStorage.Mutex mds' = false
          /\ MockDatabaseStorage.made mds' = MockDatabaseStorage.made mds
          /\ (o = Panics
              <-> MockDatabaseStorage.made mds = false
                  /\ exists p, c = CallSave p)).
Proof.
  intros Hfree. destruct mds as [mu tb]. simpl in Hfree. subst mu.
  unfold mock_call, memory_call, as_memory.
  unfold MockDatabaseStorage.Save, MockDatabaseStorage.GetByID,
    MockDatabaseStorage.Delete, MockDatabaseStorage.Lock,
    MockDatabaseStorage.Unlock, MockDatabaseStorage.store,
    MockDatabaseStorage.made, MockDatabaseStorage.mk,
    MemoryStorage.Save, MemoryStorage.GetByID,
    MemoryStorage.Delete, MemoryStorage.Lock, MemoryStorage.Unlock,
    MemoryStorage.Products, MemoryStorage.mk, new_product.
  simpl. split.
  - intros ->. by destruct c.
  - intros ->.
    assert (Hnil : forall id, (∅ : gmap Z Product) !! id = None)
      by (intros id; apply lookup_empty).
    destruct c as [p|id|id], tb as [st|]; simpl; rewrite ?Hnil;
      try destruct (st !! id); simpl;
      (eexists _, _, _; split; [done|]; split; [done|]; split; [done|];
       split; [done|]; split;
       [first [done|intros _; split; [done|by eexists]]
       |first [done|by intros [Hm [q Hq]]]]).
Qed.

Lemma mock_call_is_memory_call_witness :
  let p := mkProduct 1 "Test Product" f64_zero 0 "" in
  let mds := MockDatabaseStorage.NewMockDatabaseStorage in
  let d := mk_db_draws 2 (S754_finite false 8388608 (-27)) in
  let d' := mk_db_draws 0 f32_tenth in
  MockDatabaseStorage.Mutex mds = false
  /\ mock_call d (CallSave p) mds ∅
     = Some (Returns (None, Some ErrFailedToSaveProduct), mds, ∅)
  /\ (exists o mds' h',
        mock_call d' (CallSave p) mds ∅ = Some (o, mds', h')
        /\ memory_call (CallSave p) (as_memory mds) ∅
           = Some (o, as_memory mds', h')
        /\ o <> Panics)
  /\ mock_call d' (CallSave p) MockDatabaseStorage.zero ∅
     = Some (Panics, MockDatabaseStorage.zero, ∅)
  /\ exists o mds' h',
       mock_call d' (CallSave p) MockDatabaseStorage.zero ∅
       = Some (o, mds', h')
       /\ memory_call (CallSave p) (as_memory MockDatabaseStorage.zero) ∅
          = Some (o, as_memory mds', h')
       /\ o = Panics.
Proof.
  intros p mds d d'.
  destruct (mock_call_is_memory_call mds d (CallSave p) ∅ eq_refl)
    as [Hfail _].
  destruct (mock_call_is_memory_call mds d' (CallSave p) ∅ eq_refl)
    as [_ Hpass].
  destruct (mock_call_is_memory_call MockDatabaseStorage.zero d' (CallSave p)
              ∅ eq_refl) as [_ Hzero].
  split; [reflexivity|]. split; [exact (Hfail eq_refl)|].
  split; [|split; [reflexivity|]].
  - destruct (Hpass eq_refl) as (o & mds' & h' & Hmock & Hmem & _ & _ & Ho).
    exists o, mds', h'. split; [exact Hmock|]. split; [exact Hmem|].
    intros Hpanics. apply Ho in Hpanics as [Hmade _]. discriminate Hmade.
  - destruct (Hzero eq_refl) as (o & mds' & h' & Hmock & Hmem & _ & _ & Ho).
    exists o, mds', h'. split; [exact Hmock|]. split; [exact Hmem|].
    apply Ho. split; [reflexivity|]. by exists p.
Defined.

(** X12: a sequence of calls on a mock database whose mutex is free and
    whose map has been made runs to its end, every call finding the mutex
    free again and the map still made, and leaves the entries and the heap
    that the memory storage is left with by the calls whose failure draw
    did not trigger: a call that fails transiently has no effect. *)
Theorem mock_calls_drop_failures (cs : list (db_draws * storage_call))
    (mds : MockDatabaseStorage.t) (h : gmap loc Product) :
  MockDatabaseStorage.Mutex mds = false ->
  MockDatabaseStorage.made mds = true ->
  exists mds' h',
    mock_calls cs mds h = Some (Returns (mds', h'))
    /\ MockDatabaseStorage.Mutex mds' = false
    /\ MockDatabaseStorage.made mds' = true
    /\ memory_calls
         (filter (fun dc : db_draws * storage_call =>
                    failure_triggers (fail_draw dc.1) = false) cs).*2
         (as_memory mds) h
       = Some (Returns (as_memory mds', h')).
Proof.
  revert mds h. induction cs as [|[d c] cs IH]; intros mds h Hfree Hmade.
  - by exists mds, h.
  - destruct (mock_call_cases mds d c h Hfree) as [Hfail Hpass].
    simpl. destruct (failure_triggers (fail_draw d)) eqn:Hd.
    + rewrite (Hfail eq_refl). simpl.
      rewrite filter_cons_False by (simpl; congruence). by apply IH.
    + destruct (Hpass eq_refl)
        as (o & mds1 & h1 & -> & Hmem & Hfree1 & Hmade1 & Ho).
      simpl. rewrite filter_cons_True by done. simpl. rewrite Hmem. simpl.
      destruct o as [r|].
      * apply IH; [done|congruence].
      * destruct Ho as [Ho _]. destruct (Ho eq_refl) as [Hnil _]. congruence.
Qed.

Lemma mock_calls_drop_failures_witness :
  let p := mkProduct 1 "Test Product" f64_zero 0 "" in
  let q := mkProduct 2 "Other" f64_zero 0 "" in
  let fails := mk_db_draws 2 (S754_finite false 8388608 (-27)) in
  let passes := mk_db_draws 0 f32_tenth in
  let cs := [(passes, CallSave p); (fails, CallSave q);
             (fails, CallDelete 1); (passes, CallGetByID 1)] in
  let mds := MockDatabaseStorage.NewMockDatabaseStorage in
  MockDatabaseStorage.Mutex mds = false
  /\ MockDatabaseStorage.made mds = true
  /\ mock_calls cs mds ∅
     = Some (Returns (MockDatabaseStorage.mk false (<[1 := p]> ∅),
                      {[1%positive := p]}))
  /\ exists mds' h',
       mock_calls cs mds ∅ = Some (Returns (mds', h'))
       /\ memory_calls [CallSave p; CallGetByID 1] (as_memory mds) ∅
          = Some (Returns (as_memory mds', h')).
Proof.
  intros p q fails passes cs mds.
  split; [reflexivity|]. split; [reflexivity|]. split; [reflexivity|].
  destruct (mock_calls_drop_failures cs mds ∅ eq_refl eq_refl)
    as (mds' & h' & Hmock & _ & _ & Hmem).
  by exists mds', h'.
Defined.

(** Without a map that has been made the sequence does not run to its
    end: on the zero value the first [Save] that passes the failure draw
    panics. *)
Example mock_calls_on_nil_map :
  let p := mkProduct 1 "Test Product" f64_zero 0 "" in
  let fails := mk_db_draws 2 (S754_finite false 8388608 (-27)) in
  let passes := mk_db_draws 0 f32_tenth in
  mock_calls [(fails, CallSave p); (passes, CallGetByID 1);
              (passes, CallSave p); (passes, CallDelete 1)]
    MockDatabaseStorage.zero ∅
  = Some Panics.
Proof. reflexivity. Qed.

End StorageCallFacts.

(** ** The external API and [Display] *)

Section FetchDisplayFacts.

Lemma f64_of_small_int (n : Z) :
  0 <= n < 100 ->
  is_float64 (f64_of_int n)
  /\ SFleb f64_zero (f64_of_int n) = true
  /\ SFltb (f64_of_int n) (f64_of_int 100) = true.
Proof.
  intros Hn.
  assert (Hall : forallb (fun k =>
                    valid_binary prec64 emax64 (f64_of_int k)
                    && SFleb f64_zero (f64_of_int k)
                    && SFltb (f64_of_int k) (f64_of_int 100))
                   (seqZ 0 100) = true) by (vm_compute; reflexivity).
  rewrite forallb_forall in Hall.
  specialize (Hall n). rewrite !andb_true_iff in Hall.
  unfold is_float64. apply and_assoc, Hall, list_elem_of_In, elem_of_seqZ. lia.
Qed.

(** X13: [FetchProductDetails] fails with [ErrFailedToFetchProductDetails]
    and a [nil] pointer exactly when the failure draw triggers. Otherwise,
    with the price and quantity draws in the range of [rand.Intn(100)], it
    returns a product that carries the requested ID, the name
    ["Product <id>"] and the category ["Category"], a quantity from 0 to
    99 and as price a [float64] from 0 to 99; products fetched for
    different IDs have different names. *)
Theorem FetchProductDetails_spec (api : ExternalAPI) (d : api_draws) (id : Z) :
  is_int id -> 0 <= api_price d < 100 -> 0 <= api_quantity d < 100 ->
  (failure_triggers (api_fail d) = true ->
     FetchProductDetails api d id
     = (None, Some ErrFailedToFetchProductDetails))
  /\ (failure_triggers (api_fail d) = false ->
        exists p,
          FetchProductDetails api d id = (Some p, None)
          /\ ID p = id /\ Name p = "Product " +:+ pretty id
          /\ Category p = "Category"
          /\ wf_product p /\ 0 <= Quantity p < 100
          /\ Price p = f64_of_int (api_price d)
          /\ SFleb f64_zero (Price p) = true
          /\ SFltb (Price p) (f64_of_int 100) = true
          /\ forall d' id' p',
               FetchProductDetails api d' id' = (Some p', None) ->
               Name p' = Name p -> id' = id).
Proof.
  intros Hid Hprice Hquantity. unfold FetchProductDetails. split.
  - by intros ->.
  - intros ->. eexists. split; [done|]. simpl.
    destruct (f64_of_small_int (api_price d) Hprice) as (Hvalid & Hle & Hlt).
    split; [done|]. split; [done|]. split; [done|]. split.
    { unfold wf_product. simpl. split; [done|]. split; [|done].
      unfold is_int, min_int, max_int, int_bits. lia. }
    split; [done|]. split; [done|]. split; [done|]. split; [done|].
    intros d' id' p'. destruct (failure_triggers (api_fail d')); [done|].
    intros [= <-]. simpl. intros [= Heq]. exact (pretty_Z_inj _ _ Heq).
Qed.

Lemma FetchProductDetails_spec_witness :
  let api := mkExternalAPI "http://localhost" in
  let d := mk_api_draws 1 (S754_finite false 8388608 (-24)) 42 7 in
  exists p,
    FetchProductDetails api d 5 = (Some p, None)
    /\ Name p = "Product 5" /\ wf_product p /\ 0 <= Quantity p < 100.
Proof.
  intros api d.
  assert (Hid : is_int 5) by (unfold is_int, min_int, max_int, int_bits; lia).
  destruct (FetchProductDetails_spec api d 5 Hid) as [_ Hok];
    [simpl; lia|simpl; lia|].
  destruct (Hok eq_refl) as (p & Hp & _ & Hname & _ & Hwf & Hq & _).
  exists p. split; [exact Hp|]. split; [exact Hname|]. split; [exact Hwf|].
  exact Hq.
Defined.

Lemma append_cons (c : Ascii.ascii) (s t : string) :
  String c s +:+ t = String c (s +:+ t).
Proof. reflexivity. Qed.

Lemma append_nil (t : string) : "" +:+ t = t.
Proof. reflexivity. Qed.

Lemma append_assoc (s1 s2 s3 : string) :
  (s1 +:+ s2) +:+ s3 = s1 +:+ (s2 +:+ s3).
Proof.
  induction s1 as [|c s1 IH]; rewrite ?append_cons, ?append_nil; [done|].
  by f_equal.
Qed.

(** Numerals hold no comma. *)
Lemma pretty_N_go_no_comma (x : N) (s : string) :
  (forall s1 s2, s <> s1 +:+ "," +:+ s2) ->
  forall s1 s2, pretty_N_go x s <> s1 +:+ "," +:+ s2.
Proof.
  revert s. induction (N.lt_wf_0 x) as [x _ IH]. intros s Hs.
  assert (x = 0 \/ 0 < x)%N as [->|Hpos] by lia.
  - by rewrite pretty_N_go_0.
  - rewrite pretty_N_go_step by done. apply IH; [by apply N.div_lt|].
    intros [|c s1] s2; rewrite ?append_cons, ?append_nil.
    + intros [= Hc _]. revert Hc. unfold pretty_N_char.
      by repeat case_match.
    + intros [= _ Hrest]. exact (Hs _ _ Hrest).
Qed.

Lemma pretty_Z_no_comma (z : Z) (s1 s2 : string) :
  pretty z <> s1 +:+ "," +:+ s2.
Proof.
  assert (Hpos : forall p t1 t2,
             pretty (N.pos p) <> t1 +:+ "," +:+ t2).
  { intros p t1 t2. unfold pretty, pretty_N.
    destruct (decide (N.pos p = 0%N)); [done|].
    apply pretty_N_go_no_comma.
    intros [|? ?] ?; by rewrite ?append_cons, ?append_nil. }
  destruct z as [|p|p]; unfold pretty, pretty_Z.
  - destruct s1 as [|? [|? ?]]; by rewrite ?append_cons, ?append_nil.
  - apply Hpos.
  - destruct s1 as [|c s1]; rewrite ?append_cons, ?append_nil; [done|].
    intros [= _ Hrest]. exact (Hpos _ _ _ Hrest).
Qed.

Lemma comma_delimited (u v s t : string) :
  (forall s1 s2, u <> s1 +:+ "," +:+ s2) ->
  (forall s1 s2, v <> s1 +:+ "," +:+ s2) ->
  u +:+ "," +:+ s = v +:+ "," +:+ t -> u = v.
Proof.
  revert v. induction u as [|a u IH]; intros [|b v] Hu Hv;
    rewrite ?append_cons, ?append_nil.
  - done.
  - intros [= <- Hrest]. destruct (Hv "" v).
    by rewrite ?append_cons, ?append_nil.
  - intros [= -> Hrest]. destruct (Hu "" u).
    by rewrite ?append_cons, ?append_nil.
  - intros [= <- Hrest]. f_equal. apply IH; [| |done].
    + intros s1 s2 ->. by apply (Hu (String a s1) s2).
    + intros s1 s2 ->. by apply (Hv (String a s1) s2).
Qed.

(** X14: whatever text [fmt] produces for the price, the string [Display]
    returns determines the ID of the product, but not the product: two
    different products with one ID have the same [Display], the name of
    one holding what the other shows after its name. *)
Theorem Display_determines_ID_only (format_2f : float64 -> string) :
  (forall p q, Display format_2f p = Display format_2f q -> ID p = ID q)
  /\ exists p q,
       p <> q /\ ID p = ID q /\ Display format_2f p = Display format_2f q.
Proof.
  split.
  - intros p q. unfold Display. intros Heq%(inj (String.app "ID: ")).
    apply pretty_Z_inj.
    apply (comma_delimited _ _
             (" Name: " +:+ Name p +:+ ", Price: " +:+ format_2f (Price p)
              +:+ ", Quantity: " +:+ pretty (Quantity p)
              +:+ ", Category: " +:+ Category p)
             (" Name: " +:+ Name q +:+ ", Price: " +:+ format_2f (Price q)
              +:+ ", Quantity: " +:+ pretty (Quantity q)
              +:+ ", Category: " +:+ Category q));
      [apply pretty_Z_no_comma..|exact Heq].
  - set (tail := ", Price: " +:+ format_2f f64_zero
                 +:+ ", Quantity: " +:+ pretty 0 +:+ ", Category: ").
    exists (mkProduct 1 "" f64_zero 0 tail), (mkProduct 1 tail f64_zero 0 "").
    split; [by intros [= Heq]|]. split; [done|].
    unfold Display. simpl. unfold tail. by rewrite !append_assoc.
Qed.

End FetchDisplayFacts.

(** ** The order of the results of [FetchProductsConcurrently] *)

Section FetchOrderFacts.

Import Fetcher.

Variable api : ExternalAPI.

Lemma init_indexed (ids : list Z) (draws : nat -> api_draws) :
  indexed api (jobs ids draws) (init ids draws).
Proof. split; simpl; [intros k g; by rewrite lookup_nil|done|lia]. Qed.

Lemma main_step_indexed (js : list (Z * api_draws)) (s s' : sys) :
  indexed api js s -> main_step s = Some s' -> indexed api js s'.
Proof.
  intros [Hgs Hrest Hlen]. unfold main_step.
  destruct (main s) as [[|[id d] rest]| |ps] eqn:Hmain; simpl in *.
  - intros [= <-]. by split.
  - intros [= <-].
    assert (Hk : js !! length (goroutines s) = Some (id, d)).
    { rewrite <- (Nat.add_0_r (length _)), <- lookup_drop. by rewrite Hrest. }
    split; simpl.
    + intros k g. rewrite lookup_app_Some. intros [Hold|[Hge Hnew]].
      * by apply Hgs.
      * apply list_lookup_singleton_Some in Hnew as [Hz <-]. simpl.
        by replace k with (length (goroutines s)) by lia.
    + rewrite length_app. simpl. rewrite Nat.add_1_r.
      rewrite (drop_S _ _ _ Hk) in Hrest. by injection Hrest.
    + rewrite length_app. simpl. apply lookup_lt_Some in Hk. lia.
  - destruct (wg s); [|done]. intros [= <-]. by split.
  - done.
Qed.

Lemma go_step_indexed (js : list (Z * api_draws)) (k : nat) (s s' : sys) :
  indexed api js s -> go_step api k s = Some s' -> indexed api js s'.
Proof.
  intros [Hgs Hrest Hlen]. unfold go_step.
  destruct (goroutines s !! k) as [g|] eqn:Hk; [|done].
  assert (Hset : forall g', works_on api js k g' ->
            indexed api js
              (mk (main s) (<[k := g']> (goroutines s)) (results s) (errors s)
                  (wg s) (capacity s))
            /\ forall r e n, 
                 indexed api js
                   (mk (main s) (<[k := g']> (goroutines s)) r e n
                       (capacity s))).
  { intros g' Hg'.
    assert (Hany : forall r e n,
              indexed api js
                (mk (main s) (<[k := g']> (goroutines s)) r e n (capacity s))).
    { intros r e n. split; simpl; rewrite ?length_insert; try done.
      intros k' g0. destruct (decide (k' = k)) as [->|Hne].
      - rewrite list_lookup_insert_eq by (by eapply lookup_lt_Some).
        by intros [= <-].
      - rewrite list_lookup_insert_ne by done. apply Hgs. }
    split; [apply Hany|exact Hany]. }
  pose proof (Hgs k g Hk) as Hwork.
  destruct g as [id d|[product [err|]]| |]; simpl in Hwork.
  - intros [= <-]. apply Hset. simpl. eauto.
  - destruct (decide _); [|done]. intros [= <-]. by apply Hset.
  - destruct (decide _); [|done]. intros [= <-]. by apply Hset.
  - destruct (wg s); [done|]. intros [= <-]. by apply Hset.
  - done.
Qed.

Lemma run_indexed (js : list (Z * api_draws)) (sched : list actor)
    (s s' : sys) :
  indexed api js s -> run api sched s = Some s' -> indexed api js s'.
Proof.
  revert s. induction sched as [|a sched IH]; intros s Hidx; simpl.
  - by intros [= <-].
  - destruct (step_at api a s) as [s1|] eqn:Hstep; [|done]. simpl.
    apply IH. destruct a as [|k]; simpl in Hstep.
    + by eapply main_step_indexed.
    + by eapply go_step_indexed.
Qed.

Lemma step_at_has_sent (a : actor) (s s' : sys) (k : nat) :
  step_at api a s = Some s' -> has_sent_at s k -> has_sent_at s' k.
Proof.
  unfold has_sent_at. destruct a as [|k0]; simpl.
  - unfold main_step. destruct (main s) as [[|[id d] rest]| |ps].
    + by intros [= <-].
    + intros [= <-]. simpl.
      intros [H|H]; [left|right]; by apply lookup_app_l_Some.
    + destruct (wg s); [|done]. by intros [= <-].
    + done.
  - unfold go_step. destruct (goroutines s !! k0) as [g|] eqn:Hk0; [|done].
    assert (Hkeep : forall g',
              (g = GDeferred -> g' = GExit) -> g <> GExit ->
              goroutines s !! k = Some GDeferred
              \/ goroutines s !! k = Some GExit ->
              <[k0 := g']> (goroutines s) !! k = Some GDeferred
              \/ <[k0 := g']> (goroutines s) !! k = Some GExit).
    { intros g' Hg' Hne. destruct (decide (k = k0)) as [->|Hk].
      - rewrite Hk0, list_lookup_insert_eq by (by eapply lookup_lt_Some).
        intros [[= ->]|[= ->]]; [right; by rewrite Hg'|done].
      - by rewrite list_lookup_insert_ne. }
    destruct g as [id d|[product [err|]]| |].
    + intros [= <-]. simpl. by apply Hkeep.
    + destruct (decide _); [|done]. intros [= <-]. simpl. by apply Hkeep.
    + destruct (decide _); [|done]. intros [= <-]. simpl. by apply Hkeep.
    + destruct (wg s); [done|]. intros [= <-]. simpl. by apply Hkeep.
    + done.
Qed.

(** Along an execution, [results] grows by what the senders fetched, in
    the order of their sends; no goroutine sends twice. *)
Lemma run_senders (js : list (Z * api_draws)) (sched : list actor)
    (s s' : sys) :
  indexed api js s -> run api sched s = Some s' ->
  exists new,
    results s' = results s ++ new
    /\ Forall2 (fetched_by api js) (senders api sched s) new
    /\ NoDup (senders api sched s)
    /\ Forall (fun k => ~ has_sent_at s k) (senders api sched s).
Proof.
  revert s. induction sched as [|a sched IH]; intros s Hidx; simpl.
  - intros [= <-]. exists []. rewrite app_nil_r.
    repeat split; constructor.
  - destruct (step_at api a s) as [s1|] eqn:Hstep; [|done]. simpl.
    intros Hrun.
    assert (Hidx1 : indexed api js s1).
    { destruct a as [|k]; simpl in Hstep;
        [by eapply main_step_indexed|by eapply go_step_indexed]. }
    destruct (IH s1 Hidx1 Hrun) as (new & Hres & Hall & Hnodup & Hunsent).
    assert (Hback : Forall (fun k => ~ has_sent_at s k) (senders api sched s1)).
    { eapply Forall_impl; [exact Hunsent|]. intros k Hk Hs. apply Hk.
      by eapply step_at_has_sent. }
    assert (Hsame : results s1 = results s ->
              exists new0,
                results s' = results s ++ new0
                /\ Forall2 (fetched_by api js) (senders api sched s1) new0
                /\ NoDup (senders api sched s1)
                /\ Forall (fun k => ~ has_sent_at s k)
                     (senders api sched s1)).
    { intros Heq. exists new. by rewrite <- Heq. }
    destruct a as [|k]; simpl in Hstep.
    + apply Hsame. revert Hstep. unfold main_step.
      destruct (main s) as [[|[id d] rest]| |ps]; try done;
        [by intros [= <-]|by intros [= <-]|].
      destruct (wg s); [|done]. by intros [= <-].
    + revert Hstep. unfold go_step.
      destruct (goroutines s !! k) as [g|] eqn:Hk; [|done].
      pose proof (idx_goroutines _ _ _ Hidx k g Hk) as Hwork.
      destruct g as [id d|[product [err|]]| |]; simpl in Hwork.
      * intros [= <-]. by apply Hsame.
      * destruct (decide _); [|done]. intros [= <-]. by apply Hsame.
      * destruct (decide _); [|done]. intros [= <-]. simpl in *.
        exists (product :: new). split; [by rewrite Hres, <- app_assoc|].
        destruct Hwork as (id & d & Hjob & Heq).
        split; [constructor; [by exists id, d|done]|].
        split.
        -- constructor; [|done]. intros Hin.
           rewrite Forall_forall in Hunsent. apply (Hunsent k Hin).
           left. simpl. apply list_lookup_insert_eq. by eapply lookup_lt_Some.
        -- constructor; [|done]. unfold has_sent_at. rewrite Hk.
           by intros [[=]|[=]].
      * destruct (wg s); [done|]. intros [= <-]. by apply Hsame.
      * done.
Qed.

Lemma jobs_lookup_Some (ids : list Z) (draws : nat -> api_draws) (k : nat)
    (id : Z) (d : api_draws) :
  jobs ids draws !! k = Some (id, d) <-> ids !! k = Some id /\ d = draws k.
Proof.
  unfold jobs. rewrite list_lookup_imap.
  destruct (ids !! k) as [id'|]; simpl; [|split; [done|by intros [? _]]].
  split; [by intros [= -> ->]|by intros [[= ->] ->]].
Qed.

(** X15: the products are returned in the order in which their goroutines
    sent them, whatever the order of [ids]: the goroutines that send on
    [results] along a returning execution are pairwise different, and the
    result lists, in the order of these sends, what each of them
    fetched. *)
Theorem results_in_send_order (ids : list Z) (draws : nat -> api_draws)
    (sched : list actor) (products : list (option Product)) :
  FetchProductsConcurrently api ids draws sched = Some products ->
  NoDup (senders api sched (init ids draws))
  /\ Forall2
       (fun k x => exists id,
          ids !! k = Some id
          /\ FetchProductDetails api (draws k) id = (x, None))
       (senders api sched (init ids draws)) products.
Proof.
  unfold FetchProductsConcurrently.
  destruct (run api sched (init ids draws)) as [s|] eqn:Hrun; [|done].
  simpl. destruct (main s) as [| |ps] eqn:Hmain; try done. intros [= ->].
  destruct (run_senders _ _ _ _ (init_indexed ids draws) Hrun)
    as (new & Hres & Hall & Hnodup & _).
  destruct (run_invariant api _ _ _ _ (init_invariant api ids draws) Hrun)
    as [Hinv _].
  destruct (inv_return _ _ _ Hinv _ Hmain) as [-> _].
  simpl in Hres. rewrite Hres. split; [done|].
  eapply Forall2_impl; [exact Hall|].
  intros k x (id & d & Hjob & Hcall).
  apply jobs_lookup_Some in Hjob as [Hid ->]. by exists id.
Qed.

(** The state in which every goroutine is started and those in [done]
    have run to their end, in that order. *)
Lemma spawn_all (rest : list (Z * api_draws)) (gs : list goroutine)
    (w cap : nat) :
  run api (replicate (length rest) Main) (mk (MLoop rest) gs [] [] w cap)
  = Some (mk (MLoop []) (gs ++ ((fun j => GCall j.1 j.2) <$> rest)) [] []
             (w + length rest) cap).
Proof.
  revert gs w. induction rest as [|[id d] rest IH]; intros gs w; simpl.
  - by rewrite app_nil_r, Nat.add_0_r.
  - rewrite IH. simpl.
    rewrite <- app_assoc. simpl. do 3 f_equal. lia.
Qed.

Lemma go_step_at (s : sys) (k : nat) (g : goroutine) :
  goroutines s !! k = Some g ->
  go_step api k s
  = match g with
    | GCall id d =>
        Some (mk (main s)
                 (<[k := GSend (FetchProductDetails api d id)]> (goroutines s))
                 (results s) (errors s) (wg s) (capacity s))
    | GSend (_, Some err) =>
        if decide (length (errors s) < capacity s)%nat
        then Some (mk (main s) (<[k := GDeferred]> (goroutines s)) (results s)
                      (errors s ++ [err]) (wg s) (capacity s))
        else None
    | GSend (product, None) =>
        if decide (length (results s) < capacity s)%nat
        then Some (mk (main s) (<[k := GDeferred]> (goroutines s))
                      (results s ++ [product]) (errors s) (wg s) (capacity s))
        else None
    | GDeferred =>
        match wg s with
        | O => None
        | S n => Some (mk (main s) (<[k := GExit]> (goroutines s)) (results s)
                          (errors s) n (capacity s))
        end
    | GExit => None
    end.
Proof. intros Hk. unfold go_step. by rewrite Hk. Qed.

Lemma goroutine_turn (s : sys) (k : nat) (id : Z) (d : api_draws) (n : nat) :
  goroutines s !! k = Some (GCall id d) ->
  (length (results s) < capacity s)%nat ->
  (length (errors s) < capacity s)%nat ->
  wg s = S n ->
  run api [Go k; Go k; Go k] s
  = Some (mk (main s) (<[k := GExit]> (goroutines s))
             (results s ++ fetched api (id, d))
             (errors s ++ failed api (id, d)) n (capacity s)).
Proof.
  destruct s as [m gs res errs w cap]. simpl. intros Hcall Hres Herr ->.
  assert (Hk : (k < length gs)%nat) by (by eapply lookup_lt_Some).
  rewrite (go_step_at _ k (GCall id d)) by done. simpl.
  rewrite (go_step_at _ k (GSend (FetchProductDetails api d id)))
    by (simpl; by apply list_lookup_insert_eq).
  unfold fetched, failed. simpl.
  destruct (FetchProductDetails api d id) as [product [err|]].
  - destruct (decide _); [|lia]. simpl.
    rewrite (go_step_at _ k GDeferred)
      by (simpl; apply list_lookup_insert_eq; by rewrite length_insert).
    simpl. by rewrite !list_insert_insert_eq, app_nil_r.
  - destruct (decide _); [|lia]. simpl.
    rewrite (go_step_at _ k GDeferred)
      by (simpl; apply list_lookup_insert_eq; by rewrite length_insert).
    simpl. by rewrite !list_insert_insert_eq, app_nil_r.
Qed.

Lemma fetched_failed_length (js : list (Z * api_draws)) (done : list nat) :
  (length (flat_map (fun k => from_option (fetched api) [] (js !! k)) done)
   + length (flat_map (fun k => from_option (failed api) [] (js !! k)) done)
   <= length done)%nat.
Proof.
  induction done as [|k done IH]; simpl; [done|].
  rewrite !length_app. destruct (js !! k) as [j|]; simpl; [|lia].
  pose proof (fetched_length api j). lia.
Qed.

Lemma turns_run (js : list (Z * api_draws)) (turns done : list nat) :
  NoDup (done ++ turns) -> Forall (fun k => k < length js)%nat turns ->
  (length done + length turns <= length js)%nat ->
  let state := fun done : list nat =>
    mk MWait
      (imap (fun k j => if bool_decide (k ∈ done) then GExit
                        else GCall j.1 j.2) js)
      (flat_map (fun k => from_option (fetched api) [] (js !! k)) done)
      (flat_map (fun k => from_option (failed api) [] (js !! k)) done)
      (length js - length done) (length js) in
  run api (flat_map (fun k => [Go k; Go k; Go k]) turns) (state done)
  = Some (state (done ++ turns)).
Proof.
  intros Hnodup Hbound Hlen state. revert done Hnodup Hlen.
  induction turns as [|k turns IH]; intros done Hnodup Hlen.
  - by rewrite app_nil_r.
  - apply Forall_cons in Hbound as [Hk Hbound]. simpl in Hlen.
    destruct (lookup_lt_is_Some_2 js k Hk) as [[id d] Hjob].
    assert (Hfresh : k ∉ done).
    { apply NoDup_app in Hnodup as (_ & Hdisj & _). intros Hin.
      apply (Hdisj k Hin). left. }
    pose proof (fetched_failed_length js done) as Hfl.
    assert (Hstate : run api [Go k; Go k; Go k] (state done)
                     = Some (state (done ++ [k]))).
    { rewrite (goroutine_turn (state done) k id d
                 (length js - length (done ++ [k]))).
      - unfold state. simpl. f_equal. f_equal.
        + apply list_eq. intros i. destruct (decide (i = k)) as [->|Hne].
          * rewrite list_lookup_insert_eq by (by rewrite length_imap).
            rewrite list_lookup_imap, Hjob. simpl.
            rewrite bool_decide_eq_true_2; [done|]. apply elem_of_app. right.
            left.
          * rewrite list_lookup_insert_ne by done. rewrite !list_lookup_imap.
            destruct (js !! i) as [j|]; simpl; [|done]. f_equal.
            destruct (decide (i ∈ done)) as [Hin|Hout].
            -- rewrite !bool_decide_eq_true_2;
                 [done|by apply elem_of_app; left|done].
            -- rewrite !bool_decide_eq_false_2; [done| |done].
               rewrite elem_of_app, list_elem_of_singleton. tauto.
        + rewrite flat_map_app. simpl. by rewrite Hjob, app_nil_r.
        + rewrite flat_map_app. simpl. by rewrite Hjob, app_nil_r.
      - unfold state. simpl. rewrite list_lookup_imap, Hjob. simpl.
        by rewrite bool_decide_eq_false_2.
      - unfold state. simpl. lia.
      - unfold state. simpl. lia.
      - unfold state. simpl. rewrite length_app. simpl. lia. }
    change (flat_map (fun k => [Go k; Go k; Go k]) (k :: turns))
      with ([Go k; Go k; Go k]
            ++ flat_map (fun k => [Go k; Go k; Go k]) turns).
    rewrite run_app, Hstate. simpl.
    rewrite (IH Hbound (done ++ [k])).
    + by rewrite <- app_assoc.
    + by rewrite <- app_assoc.
    + rewrite length_app. simpl. lia.
Qed.

Lemma ordered_schedule_run (ids : list Z) (draws : nat -> api_draws)
    (turns : list nat) :
  turns ≡ₚ seq 0 (length ids) ->
  FetchProductsConcurrently api ids draws
    (ordered_schedule (length ids) turns)
  = Some (flat_map (fetched_at api ids draws) turns).
Proof.
  intros Hperm. unfold FetchProductsConcurrently, ordered_schedule.
  rewrite replicate_S_end, <- app_assoc, run_app.
  unfold init at 1. rewrite <- (jobs_length ids draws) at 1.
  rewrite spawn_all. simpl. rewrite run_app.
  pose proof (jobs_length ids draws) as Hjobs.
  assert (Hnodup : NoDup ([] ++ turns)).
  { simpl. rewrite Hperm. apply NoDup_seq. }
  assert (Hbound : Forall (fun k => k < length (jobs ids draws))%nat turns).
  { rewrite Hperm, Hjobs. apply Forall_forall. intros k Hk%elem_of_seq. lia. }
  assert (Hlen : (length (@nil nat) + length turns
                  <= length (jobs ids draws))%nat).
  { rewrite Hperm, length_seq, Hjobs. simpl. lia. }
  pose proof (turns_run (jobs ids draws) turns [] Hnodup Hbound Hlen) as Hrun.
  cbv zeta beta in Hrun. cbn [flat_map length app] in Hrun.
  assert (Hstart : imap (fun (k : nat) (j : Z * api_draws) =>
                           if bool_decide (k ∈ @nil nat) then GExit
                           else GCall j.1 j.2) (jobs ids draws)
                   = (fun j : Z * api_draws => GCall j.1 j.2)
                       <$> jobs ids draws).
  { apply list_eq. intros i. rewrite list_lookup_imap, list_lookup_fmap.
    by destruct (jobs ids draws !! i). }
  rewrite Hstart, Nat.sub_0_r, Hjobs in Hrun. rewrite Hjobs, Hrun. simpl.
  unfold main_step. simpl.
  replace (length ids - length turns)%nat with O
    by (rewrite Hperm, length_seq; lia).
  simpl. f_equal. apply flat_map_ext. intros k.
  unfold fetched_at, jobs. rewrite list_lookup_imap.
  by destruct (ids !! k).
Qed.

(** X16: every order of the goroutines is the order of the results under
    some schedule: when the goroutines take their turns in the order
    [turns], any arrangement of the indices of [ids], the call returns what
    they fetched in that order. *)
Theorem every_order_is_returned (ids : list Z) (draws : nat -> api_draws)
    (turns : list nat) :
  turns ≡ₚ seq 0 (length ids) ->
  exists sched,
    FetchProductsConcurrently api ids draws sched
    = Some (flat_map (fetched_at api ids draws) turns).
Proof.
  intros Hperm. exists (ordered_schedule (length ids) turns).
  by apply ordered_schedule_run.
Qed.

(** X17: when the goroutines run one after the other in the order of
    [ids], the call returns the successful fetches in the order of
    [ids]. *)
Theorem sequential_schedule_in_input_order (ids : list Z)
    (draws : nat -> api_draws) :
  FetchProductsConcurrently api ids draws (sequential_schedule (length ids))
  = Some (flat_map (fetched api) (jobs ids draws)).
Proof.
  change (sequential_schedule (length ids))
    with (ordered_schedule (length ids) (seq 0 (length ids))).
  rewrite ordered_schedule_run by done. f_equal.
  unfold jobs, fetched_at.
  assert (Hgen : forall (l : list Z) (n : nat) (pre : list Z),
             length pre = n ->
             flat_map (fun k => match (pre ++ l) !! k with
                                | Some id => fetched api (id, draws k)
                                | None => []
                                end) (seq n (length l))
             = flat_map (fetched api)
                 (imap (fun k id => (id, draws (n + k)%nat)) l)).
  { induction l as [|id l IH]; intros n pre Hpre; simpl; [done|].
    rewrite lookup_app_r, Hpre, Nat.sub_diag by lia. simpl.
    rewrite Nat.add_0_r. f_equal.
    rewrite (cons_middle id pre l), app_assoc.
    rewrite (IH (S n) (pre ++ [id])) by (rewrite length_app; simpl; lia).
    f_equal. apply imap_ext. intros i x _. simpl. do 2 f_equal. lia. }
  apply (Hgen ids O []). done.
Qed.

(** X18: the call starts one goroutine for every element of [ids] and no
    more. At every state of every execution there are at most [len(ids)]
    goroutines, the counter of the wait group does not exceed their number,
    and the two channels together hold at most [len(ids)] values, so that
    no send finds its buffer full; when the call returns, [len(ids)]
    goroutines have been started and have exited, and every one of them has
    left one value in one of the two channels. *)
Theorem one_goroutine_per_ID (ids : list Z) (draws : nat -> api_draws)
    (sched : list actor) (s : sys) :
  run api sched (init ids draws) = Some s ->
  (length (goroutines s) <= length ids)%nat
  /\ (wg s <= length (goroutines s))%nat
  /\ (length (results s) + length (errors s) <= length ids)%nat
  /\ (length (results s) <= capacity s)%nat
  /\ (length (errors s) <= capacity s)%nat
  /\ (forall products,
        main s = MReturn products ->
        length (goroutines s) = length ids
        /\ Forall (fun g => g = GExit) (goroutines s)
        /\ wg s = O
        /\ (length products + length (errors s) = length ids)%nat).
Proof.
  intros Hrun.
  destruct (run_invariant api _ _ _ _ (init_invariant api ids draws) Hrun)
    as [Hinv _].
  pose proof (run_indexed _ _ _ _ (init_indexed ids draws) Hrun) as Hidx.
  pose proof (flat_map_fetched_length api (jobs ids draws)) as Hsum.
  pose proof (jobs_length ids draws) as Hjobs.
  pose proof (Permutation_length (inv_results _ _ _ Hinv)) as Hres.
  pose proof (Permutation_length (inv_errors _ _ _ Hinv)) as Herr.
  rewrite !length_app in Hres, Herr.
  assert (Hwg : (active_count (goroutines s) <= length (goroutines s))%nat).
  { clear. induction (goroutines s) as [|g gs IH]; simpl; [done|].
    destruct (active g); lia. }
  pose proof (idx_started _ _ _ Hidx) as Hstarted.
  rewrite (inv_wg _ _ _ Hinv), (inv_capacity _ _ _ Hinv).
  split; [lia|]. split; [done|]. split; [lia|]. split; [lia|].
  split; [lia|].
  intros products Hmain.
  destruct (returned api _ _ _ Hinv Hmain) as (Hp & He & Hexit).
  destruct (inv_return _ _ _ Hinv _ Hmain) as [-> Hz].
  pose proof (idx_unspawned _ _ _ Hidx) as Hdrop.
  rewrite Hmain in Hdrop. simpl in Hdrop.
  apply (f_equal length) in Hdrop. rewrite length_drop in Hdrop.
  simpl in Hdrop.
  apply Permutation_length in Hp, He.
  rewrite <- (inv_wg _ _ _ Hinv). repeat split; try done; lia.
Qed.

End FetchOrderFacts.

Lemma results_in_send_order_witness :
  let api := mkExternalAPI "http://localhost" in
  let ok := mk_api_draws 1 (S754_finite false 8388608 (-24)) 42 7 in
  let ko := mk_api_draws 2 (S754_zero false) 42 7 in
  let draws := fun k : nat => match k with 1%nat => ko | _ => ok end in
  let p5 := mkProduct 5 "Product 5" (f64_of_int 42) 7 "Category" in
  let p7 := mkProduct 7 "Product 7" (f64_of_int 42) 7 "Category" in
  let go := Fetcher.Go in
  let sched :=
    [Fetcher.Main; Fetcher.Main; go 1; Fetcher.Main; Fetcher.Main; go 2; go 2;
     go 0; go 1; go 0; go 2; go 1; go 0; Fetcher.Main]%nat in
  Fetcher.FetchProductsConcurrently api [5; 6; 7] draws sched
  = Some [Some p7; Some p5]
  /\ senders api sched (Fetcher.init [5; 6; 7] draws) = [2; 0]%nat
  /\ NoDup (senders api sched (Fetcher.init [5; 6; 7] draws)).
Proof.
  intros api ok ko draws p5 p7 go sched.
  assert (Hrun : Fetcher.FetchProductsConcurrently api [5; 6; 7] draws sched
                 = Some [Some p7; Some p5]) by (vm_compute; reflexivity).
  destruct (results_in_send_order api [5; 6; 7] draws sched _ Hrun)
    as [Hnodup _].
  split; [exact Hrun|]. split; [vm_compute; reflexivity|exact Hnodup].
Defined.

Lemma every_order_is_returned_witness :
  let api := mkExternalAPI "http://localhost" in
  let ok := mk_api_draws 1 (S754_finite false 8388608 (-24)) 42 7 in
  let p5 := mkProduct 5 "Product 5" (f64_of_int 42) 7 "Category" in
  let p6 := mkProduct 6 "Product 6" (f64_of_int 42) 7 "Category" in
  let p7 := mkProduct 7 "Product 7" (f64_of_int 42) 7 "Category" in
  [2; 0; 1]%nat ≡ₚ seq 0 (length [5; 6; 7])
  /\ exists sched,
       Fetcher.FetchProductsConcurrently api [5; 6; 7] (fun _ => ok) sched
       = Some [Some p7; Some p5; Some p6].
Proof.
  intros api ok p5 p6 p7.
  assert (Hperm : [2; 0; 1]%nat ≡ₚ seq 0 (length [5; 6; 7]))
    by (simpl; solve_Permutation).
  split; [exact Hperm|].
  destruct (every_order_is_returned api [5; 6; 7] (fun _ => ok)
              [2; 0; 1]%nat Hperm) as [sched Hsched].
  exists sched. etrans; [exact Hsched|]. vm_compute. reflexivity.
Defined.

Lemma one_goroutine_per_ID_witness :
  let api := mkExternalAPI "http://localhost" in
  let ok := mk_api_draws 1 (S754_finite false 8388608 (-24)) 42 7 in
  let go := Fetcher.Go in
  let sched := [Fetcher.Main; Fetcher.Main; go 1; go 0; go 1]%nat in
  exists s,
    Fetcher.run api sched (Fetcher.init [5; 5] (fun _ => ok)) = Some s
    /\ length (Fetcher.goroutines s) = 2%nat /\ (Fetcher.wg s <= 2)%nat
    /\ (length (Fetcher.results s) + length (Fetcher.errors s) <= 2)%nat.
Proof.
  intros api ok go sched. eexists. split; [reflexivity|].
  edestruct (one_goroutine_per_ID api [5; 5] (fun _ => ok) sched)
    as (Hgs & Hwg & Hbuf & _); [reflexivity|].
  split; [reflexivity|]. split; [|exact Hbuf].
  etrans; [exact Hwg|exact Hgs].
Defined.

(** ** The HTTP handlers *)

Section ServerFacts.

Variable Atoi : string -> option Z.
Variable ShouldBindJSON : string -> string + Product.

Local Abbreviation createProduct := (Server.createProduct ShouldBindJSON).
Local Abbreviation getProduct := (Server.getProduct Atoi).
Local Abbreviation updateProduct := (Server.updateProduct Atoi ShouldBindJSON).
Local Abbreviation deleteProduct := (Server.deleteProduct Atoi).
Local Abbreviation serve := (Server.serve Atoi ShouldBindJSON).
Local Abbreviation serve_all := (Server.serve_all Atoi ShouldBindJSON).

Lemma serve_keyed (inventory : Inventory.t) (c : Server.call) :
  keyed_by_ID (Inventory.Products inventory) ->
  keyed_by_ID (Inventory.Products (serve inventory c).2).
Proof.
  intros Hkeyed. destruct c as [req|req|req|req]; simpl.
  - unfold Server.createProduct.
    destruct (ShouldBindJSON (json_body req)) as [message|product]; [done|].
    pose proof (apply_inventory_call_keyed inventory (CallAddProduct product)
                  Hkeyed) as Hadd. simpl in Hadd.
    by destruct (Inventory.AddProduct product inventory) as [[[[]|]|] inv'].
  - unfold Server.getProduct. destruct (Atoi (param_id req)); [|done].
    by destruct (Inventory.Products inventory !! _).
  - unfold Server.updateProduct. destruct (Atoi (param_id req)) as [id|]; [|done].
    destruct (ShouldBindJSON (json_body req)) as [message|updated]; [done|].
    destruct (Inventory.Products inventory !! id) as [product|] eqn:Hid;
      [|done].
    simpl. rewrite Products_mk.
    intros k q. destruct (decide (k = id)) as [->|Hne].
    + rewrite lookup_insert_eq. intros [= <-]. simpl. by apply Hkeyed.
    + rewrite lookup_insert_ne by done. apply Hkeyed.
  - unfold Server.deleteProduct. destruct (Atoi (param_id req)) as [id|]; [|done].
    destruct (Inventory.Products inventory !! id) as [product|] eqn:Hid;
      [|done].
    apply (apply_inventory_call_keyed inventory (CallRemoveProduct id)) in Hkeyed.
    simpl in *. unfold Inventory.RemoveProduct in Hkeyed.
    by rewrite Hid in Hkeyed.
Qed.

(** X19: whatever requests the server answers, every product of its
    inventory is stored under its own ID, as in the empty inventory it
    starts from; so [GET] and [PUT] on [/products/:id] answer with a
    product whose ID is the [id] of the path, and [PUT] keeps the ID
    whatever ID its body carries. *)
Theorem Server_keeps_IDs (cs : list Server.call) (inventory : Inventory.t) :
  keyed_by_ID (Inventory.Products inventory) ->
  keyed_by_ID (Inventory.Products (serve_all cs inventory).2)
  /\ (forall req id p,
        Atoi (param_id req) = Some id ->
        ((getProduct req (serve_all cs inventory).2).1
         = mk_response StatusOK (ProductBody p)
         \/ (updateProduct req (serve_all cs inventory).2).1
            = mk_response StatusOK (ProductBody p)) ->
        ID p = id).
Proof.
  intros Hkeyed.
  assert (Hall : keyed_by_ID (Inventory.Products (serve_all cs inventory).2)).
  { revert inventory Hkeyed. induction cs as [|c cs IH]; intros inv Hkeyed;
      [done|].
    simpl. pose proof (serve_keyed inv c Hkeyed) as Hstep.
    destruct (serve inv c) as [r inv1]. specialize (IH inv1 Hstep).
    by destruct (serve_all cs inv1) as [rs inv2]. }
  split; [done|]. intros req id p Hid.
  unfold Server.getProduct, Server.updateProduct. rewrite Hid.
  intros [Hget|Hput].
  - destruct (Inventory.Products _ !! id) as [q|] eqn:Hq; [|done].
    injection Hget as <-. by apply Hall.
  - destruct (ShouldBindJSON (json_body req)) as [message|updated]; [done|].
    destruct (Inventory.Products _ !! id) as [q|] eqn:Hq; [|done].
    injection Hput as <-. simpl. by apply Hall.
Qed.

(** X20: the answers of the handlers on an inventory whose map has been
    made, as the one of the package is. Every handler returns a response:
    [createProduct] answers 201, 400 or 409 and never 500; [getProduct]
    200, 400 or 404; [updateProduct] 200, 400 or 404; [deleteProduct] 204,
    400 or 404. An answer of 400 or above leaves the inventory as it was,
    and so does every [getProduct]; and the map is still made after the
    request. *)
Theorem Server_answers (inventory : Inventory.t) (c : Server.call) :
  Inventory.made inventory = true ->
  exists r,
    (serve inventory c).1 = Returns r
    /\ match c with
       | Server.Create _ =>
           status r ∈ [StatusCreated; StatusBadRequest; StatusConflict]
       | Server.Get _ =>
           status r ∈ [StatusOK; StatusBadRequest; StatusNotFound]
           /\ (serve inventory c).2 = inventory
       | Server.Update _ =>
           status r ∈ [StatusOK; StatusBadRequest; StatusNotFound]
       | Server.Delete _ =>
           status r ∈ [StatusNoContent; StatusBadRequest; StatusNotFound]
       end
    /\ (400 <= status r -> (serve inventory c).2 = inventory)
    /\ Inventory.made (serve inventory c).2 = true.
Proof.
  intros Hmade. destruct c as [req|req|req|req]; simpl.
  - unfold Server.createProduct, Inventory.AddProduct.
    destruct (ShouldBindJSON (json_body req)) as [message|product]; simpl;
      [eexists; split; [done|]; split; [set_solver|done]|].
    destruct (Inventory.Products inventory !! ID product); simpl.
    + eexists. split; [done|]. split; [set_solver|done].
    + destruct inventory as [[m|]]; [|done]. simpl.
      eexists. split; [done|]. split; [set_solver|]. split; [|done].
      simpl. unfold StatusCreated. lia.
  - unfold Server.getProduct. destruct (Atoi (param_id req)) as [id|]; simpl;
      [|eexists; split; [done|]; split; [split; [set_solver|done]|done]].
    destruct (Inventory.Products inventory !! id); simpl;
      (eexists; split; [done|]; split; [split; [set_solver|done]|done]).
  - unfold Server.updateProduct.
    destruct (Atoi (param_id req)) as [id|]; simpl;
      [|eexists; split; [done|]; split; [set_solver|done]].
    destruct (ShouldBindJSON (json_body req)) as [message|updated]; simpl;
      [eexists; split; [done|]; split; [set_solver|done]|].
    destruct (Inventory.Products inventory !! id); simpl.
    + eexists. split; [done|]. split; [set_solver|]. split; [|done].
      simpl. unfold StatusOK. lia.
    + eexists. split; [done|]. split; [set_solver|done].
  - unfold Server.deleteProduct.
    destruct (Atoi (param_id req)) as [id|]; simpl;
      [|eexists; split; [done|]; split; [set_solver|done]].
    destruct (Inventory.Products inventory !! id); simpl.
    + eexists. split; [done|]. split; [set_solver|]. split; [|done].
      simpl. unfold StatusNoContent. lia.
    + eexists. split; [done|]. split; [set_solver|done].
Qed.

(** X21: a product created is served, on an inventory whose map has been
    made: after a [POST] binding a product with an absent ID, answered
    201, a [GET] with that ID answers 200 with the product, a second
    [POST] of it answers 409 and changes nothing, and a [DELETE] with that
    ID answers 204 and gives the inventory back, after which the [GET]
    answers 404. *)
Theorem Server_create_get_delete (inventory : Inventory.t)
    (post req : request) (product : Product) :
  Inventory.made inventory = true ->
  ShouldBindJSON (json_body post) = inr product ->
  Atoi (param_id req) = Some (ID product) ->
  Inventory.Products inventory !! ID product = None ->
  exists created,
    createProduct post inventory
    = (Returns (mk_response StatusCreated (ProductBody product)), created)
    /\ getProduct req created
       = (mk_response StatusOK (ProductBody product), created)
    /\ createProduct post created
       = (Returns (mk_response StatusConflict
                     (ErrorBody "product already exists")),
          created)
    /\ deleteProduct req created
       = (mk_response StatusNoContent NullBody, inventory)
    /\ getProduct req inventory
       = (mk_response StatusNotFound (ErrorBody "Product not found"),
          inventory).
Proof.
  intros Hmade Hbind Hid Hnone. destruct inventory as [[m|]]; [|done].
  change (Inventory.build (Some m)) with (Inventory.mk m) in *.
  rewrite Products_mk in Hnone.
  exists (Inventory.mk (<[ID product := product]> m)).
  unfold Server.createProduct, Server.getProduct, Server.deleteProduct,
    Inventory.AddProduct.
  rewrite Hbind, Hid, !Products_mk.
  rewrite lookup_insert_eq, Hnone. cbn [fst snd Inventory.table Inventory.mk].
  by rewrite delete_insert_id.
Qed.

Lemma listProducts_loop_values (order : list (Z * Product))
    (products : list Product) :
  listProducts_loop order products = products ++ order.*2.
Proof.
  revert products. induction order as [|[k p] rest IH]; intros products; simpl.
  - by rewrite app_nil_r.
  - by rewrite IH, <- app_assoc.
Qed.

(** X22: [listProducts] answers 200 with the products in the visiting
    order of the map, the n-th product listed being the one of the n-th
    entry visited: every stored product once, as many products as the map
    has entries; for the empty inventory the list is empty; the inventory
    stays as it was. *)
Theorem Server_listProducts (inventory : Inventory.t)
    (order : list (Z * Product)) :
  range_of (Inventory.Products inventory) order ->
  Server.listProducts order inventory
  = (mk_response StatusOK (ProductsBody order.*2), inventory)
  /\ (forall n, order.*2 !! n = snd <$> order !! n)
  /\ order.*2 ≡ₚ (map_to_list (Inventory.Products inventory)).*2
  /\ length order.*2 = size (Inventory.Products inventory)
  /\ (forall p, p ∈ order.*2
                <-> exists k, Inventory.Products inventory !! k = Some p)
  /\ (Inventory.Products inventory = ∅ -> order.*2 = []).
Proof.
  intros Hrange. unfold Server.listProducts.
  rewrite listProducts_loop_values. simpl. split; [done|].
  split; [intros n; apply list_lookup_fmap|].
  split; [by rewrite Hrange|]. split; [|split].
  - rewrite length_fmap, Hrange. apply length_map_to_list.
  - intros p. rewrite list_elem_of_fmap. split.
    + intros [[k q] [-> Hin]]. exists k.
      by apply (range_of_lookup _ _ _ _ Hrange).
    + intros [k Hk]. exists (k, p). split; [done|].
      by apply (range_of_lookup _ _ _ _ Hrange).
  - intros Hempty. rewrite Hempty in Hrange.
    by rewrite (range_of_empty order Hrange).
Qed.

End ServerFacts.

Lemma Server_keeps_IDs_witness :
  let p := mkProduct 1 "Test Product" f64_zero 5 "Test" in
  let q := mkProduct 7 "Renamed" (f64_of_int 20) 3 "Other" in
  let Atoi := fun s : string => if String.eqb s "1" then Some 1 else None in
  let ShouldBindJSON := fun s : string =>
    if String.eqb s "p" then inr p
    else if String.eqb s "q" then inr q else inl "EOF" in
  let cs := [Server.Create (mk_request "" "p");
             Server.Update (mk_request "1" "q")] in
  let inventory := (Server.serve_all Atoi ShouldBindJSON cs
                      (Inventory.mk ∅)).2 in
  Inventory.Products inventory
  = <[1 := mkProduct 1 "Renamed" (f64_of_int 20) 3 "Other"]> ∅
  /\ keyed_by_ID (Inventory.Products inventory).
Proof.
  intros p q Atoi ShouldBindJSON cs inventory. split; [reflexivity|].
  apply (Server_keeps_IDs Atoi ShouldBindJSON cs (Inventory.mk ∅)).
  intros k x. rewrite Products_mk. by rewrite lookup_empty.
Defined.

Lemma Server_answers_witness :
  let p := mkProduct 1 "Test Product" f64_zero 5 "Test" in
  let Atoi := fun s : string => if String.eqb s "1" then Some 1 else None in
  let ShouldBindJSON := fun s : string =>
    if String.eqb s "p" then inr p else inl "EOF" in
  let c := Server.Create (mk_request "" "p") in
  Inventory.made (Inventory.mk ∅) = true
  /\ (Server.serve Atoi ShouldBindJSON (Inventory.mk ∅) c).1
     = Returns (mk_response StatusCreated (ProductBody p))
  /\ exists r,
       (Server.serve Atoi ShouldBindJSON (Inventory.mk ∅) c).1 = Returns r
       /\ status r ∈ [StatusCreated; StatusBadRequest; StatusConflict].
Proof.
  intros p Atoi ShouldBindJSON c.
  destruct (Server_answers Atoi ShouldBindJSON (Inventory.mk ∅) c eq_refl)
    as (r & Hr & Hstatus & _).
  split; [reflexivity|]. split; [reflexivity|].
  exists r. split; [exact Hr|exact Hstatus].
Defined.

Lemma Server_create_get_delete_witness :
  let p := mkProduct 1 "Test Product" f64_zero 5 "Test" in
  let Atoi := fun s : string => if String.eqb s "1" then Some 1 else None in
  let ShouldBindJSON := fun s : string =>
    if String.eqb s "p" then inr p else inl "EOF" in
  Inventory.made (Inventory.mk ∅) = true
  /\ exists created,
       Server.createProduct ShouldBindJSON (mk_request "" "p")
         (Inventory.mk ∅)
       = (Returns (mk_response StatusCreated (ProductBody p)), created)
       /\ Server.getProduct Atoi (mk_request "1" "") created
          = (mk_response StatusOK (ProductBody p), created).
Proof.
  intros p Atoi ShouldBindJSON. split; [reflexivity|].
  destruct (Server_create_get_delete Atoi ShouldBindJSON (Inventory.mk ∅)
              (mk_request "" "p") (mk_request "1" "") p eq_refl eq_refl
              eq_refl (lookup_empty _)) as (created & Hpost & Hget & _).
  by exists created.
Defined.

Lemma Server_listProducts_witness :
  let p1 := mkProduct 1 "Product 1" f64_zero 0 "" in
  let p2 := mkProduct 2 "Product 2" f64_zero 0 "" in
  let inventory := Inventory.mk (<[2 := p2]> (<[1 := p1]> ∅)) in
  range_of (Inventory.Products inventory) [(1, p1); (2, p2)]
  /\ Server.listProducts [(1, p1); (2, p2)] inventory
     = (mk_response StatusOK (ProductsBody [p1; p2]), inventory)
  /\ length [p1; p2] = size (Inventory.Products inventory).
Proof.
  intros p1 p2 inventory.
  assert (Hrange : range_of (Inventory.Products inventory) [(1, p1); (2, p2)])
    by (unfold range_of; vm_compute; solve_Permutation).
  destruct (Server_listProducts inventory [(1, p1); (2, p2)] Hrange)
    as (Hlist & _ & _ & Hlen & _).
  split; [exact Hrange|]. split; [exact Hlist|exact Hlen].
Defined.

Section PersistentServerFacts.

Variables DB Kafka : Type.
Variable Atoi : string -> option Z.
Variable ShouldBindJSON : string -> string + Product.
Variable First : DB -> Z -> first_result.
Variable DBCreate : DB -> Product -> option string * Product * DB.
Variable DBSave : DB -> Product -> option string * Product * DB.
Variable DBDelete : DB -> Z -> option string * DB.
Variable Marshal : OrderCreated -> option string.
Variable WriteMessages : Kafka -> string -> option string * Kafka.

Local Abbreviation serve :=
  (PersistentServer.serve DB Kafka Atoi ShouldBindJSON First DBCreate DBSave
     DBDelete Marshal WriteMessages).
Local Abbreviation serve_all :=
  (PersistentServer.serve_all DB Kafka Atoi ShouldBindJSON First DBCreate
     DBSave DBDelete Marshal WriteMessages).

Lemma PersistentServer_serve_empty (w : PersistentServer.world DB Kafka)
    (c : PersistentServer.call) :
  Inventory.Products (PersistentServer.inventory _ _ w) = ∅ ->
  PersistentServer.inventory _ _ (serve w c).2
  = PersistentServer.inventory _ _ w
  /\ PersistentServer.kafkaWriter _ _ (serve w c).2
     = PersistentServer.kafkaWriter _ _ w
  /\ match c with
     | PersistentServer.Create _ => True
     | _ =>
         (serve w c).2 = w
         /\ (status (serve w c).1 = StatusBadRequest
             \/ status (serve w c).1 = StatusNotFound)
     end.
Proof.
  intros Hempty. destruct c as [req|req|req|req]; simpl.
  - unfold PersistentServer.createProduct.
    destruct (ShouldBindJSON (json_body req)) as [message|product]; [done|].
    destruct (First _ _); try done.
    by destruct (DBCreate _ _) as [[[message|] product'] db'].
  - unfold PersistentServer.getProduct.
    destruct (Atoi (param_id req)) as [id|]; [|by auto].
    rewrite Hempty, lookup_empty. by auto.
  - unfold PersistentServer.updateProduct.
    destruct (Atoi (param_id req)) as [id|]; [|by auto].
    destruct (ShouldBindJSON (json_body req)) as [message|updated];
      [by auto|].
    rewrite Hempty, lookup_empty. by auto.
  - unfold PersistentServer.deleteProduct.
    destruct (Atoi (param_id req)) as [id|]; [|by auto].
    rewrite Hempty, lookup_empty. by auto.
Qed.

(** X23: the server that writes to the database never puts a product into
    the inventory its other handlers read: [createProduct] leaves the
    inventory as it is. So from the empty inventory the program starts
    with, whatever the requests and whatever the database and the message
    bus do, the inventory stays empty; every [GET], [PUT] and [DELETE] on
    [/products/:id] answers 400 or 404 and changes nothing, neither
    inventory nor database nor message bus, also for a product whose
    creation was answered 200; nothing is written to the message bus; and
    [listProducts] answers with the empty list. *)
Theorem PersistentServer_inventory_stays_empty
    (cs : list PersistentServer.call) (w : PersistentServer.world DB Kafka) :
  Inventory.Products (PersistentServer.inventory _ _ w) = ∅ ->
  PersistentServer.inventory _ _ (serve_all cs w).2
  = PersistentServer.inventory _ _ w
  /\ PersistentServer.kafkaWriter _ _ (serve_all cs w).2
     = PersistentServer.kafkaWriter _ _ w
  /\ Forall2
       (fun c r =>
          match c with
          | PersistentServer.Create _ => True
          | _ => status r = StatusBadRequest \/ status r = StatusNotFound
          end)
       cs (serve_all cs w).1
  /\ (forall req,
        PersistentServer.inventory _ _
          (PersistentServer.createProduct DB Kafka ShouldBindJSON First
             DBCreate req w).2
        = PersistentServer.inventory _ _ w)
  /\ (forall order,
        range_of
          (Inventory.Products
             (PersistentServer.inventory _ _ (serve_all cs w).2)) order ->
        PersistentServer.listProducts DB Kafka order (serve_all cs w).2
        = (mk_response StatusOK (ProductsBody []), (serve_all cs w).2))
  /\ (forall c,
        match c with
        | PersistentServer.Create _ => True
        | _ => (serve (serve_all cs w).2 c).2 = (serve_all cs w).2
        end).
Proof.
  intros Hempty.
  assert (Hall : PersistentServer.inventory _ _ (serve_all cs w).2
                 = PersistentServer.inventory _ _ w
                 /\ PersistentServer.kafkaWriter _ _ (serve_all cs w).2
                    = PersistentServer.kafkaWriter _ _ w
                 /\ Forall2
                      (fun c r =>
                         match c with
                         | PersistentServer.Create _ => True
                         | _ => status r = StatusBadRequest
                                \/ status r = StatusNotFound
                         end)
                      cs (serve_all cs w).1).
  { revert w Hempty. induction cs as [|c cs IH]; intros w Hempty.
    - repeat split. constructor.
    - simpl. destruct (PersistentServer_serve_empty w c Hempty)
        as (Hinv & Hkafka & Hstatus).
      destruct (serve w c) as [r w1] eqn:Hserve. simpl in *.
      destruct (IH w1) as (Hinv' & Hkafka' & Hrest); [by rewrite Hinv|].
      destruct (serve_all cs w1) as [rs w2]. simpl in *.
      split; [congruence|]. split; [congruence|].
      constructor; [|done]. destruct c; tauto. }
  destruct Hall as (Hinv & Hkafka & Hstatus).
  split; [done|]. split; [done|]. split; [done|]. split.
  - intros req.
    by destruct (PersistentServer_serve_empty w (PersistentServer.Create req)
                   Hempty) as [Hcreate _].
  - split.
    + intros order. rewrite Hinv, Hempty. intros ->%range_of_empty. done.
    + intros c.
      destruct (PersistentServer_serve_empty (serve_all cs w).2 c)
        as (_ & _ & Hsame); [by rewrite Hinv|].
      destruct c; tauto.
Qed.

End PersistentServerFacts.

Lemma PersistentServer_inventory_stays_empty_witness :
  let p := mkProduct 1 "Test Product" f64_zero 5 "Test" in
  let Atoi := fun s : string => if String.eqb s "1" then Some 1 else None in
  let ShouldBindJSON := fun s : string =>
    if String.eqb s "p" then inr p else inl "EOF" in
  let First := fun (db : gmap Z Product) (id : Z) =>
    match db !! id with Some _ => FirstFound | None => FirstNotFound end in
  let DBCreate := fun (db : gmap Z Product) (q : Product) =>
    (@None string, q, <[ID q := q]> db) in
  let DBSave := fun (db : gmap Z Product) (q : Product) =>
    (@None string, q, <[ID q := q]> db) in
  let DBDelete := fun (db : gmap Z Product) (id : Z) =>
    (@None string, delete id db) in
  let Marshal := fun e : OrderCreated => Some (Status e) in
  let WriteMessages := fun (log : list string) (m : string) =>
    (@None string, log ++ [m]) in
  let w := PersistentServer.mk_world (gmap Z Product) (list string)
             (Inventory.mk ∅) ∅ [] in
  let cs := [PersistentServer.Create (mk_request "" "p");
             PersistentServer.Get (mk_request "1" "")] in
  (PersistentServer.serve_all _ _ Atoi ShouldBindJSON First DBCreate DBSave
     DBDelete Marshal WriteMessages cs w).1
  = [mk_response StatusOK (ProductBody p);
     mk_response StatusNotFound (ErrorBody "Product not found")]
  /\ PersistentServer.inventory _ _
       (PersistentServer.serve_all _ _ Atoi ShouldBindJSON First DBCreate
          DBSave DBDelete Marshal WriteMessages cs w).2
     = Inventory.mk ∅.
Proof.
  intros p Atoi ShouldBindJSON First DBCreate DBSave DBDelete Marshal
    WriteMessages w cs.
  split; [reflexivity|].
  by destruct (PersistentServer_inventory_stays_empty _ _ Atoi ShouldBindJSON
                 First DBCreate DBSave DBDelete Marshal WriteMessages cs w
                 eq_refl) as [Hinv _].
Defined.
